(** * sim_ranked.py: one run through a Ranked Battles league

    A shallow embedding of [sim_league] and of the script's option checks.

    - Python [int] is [Z]; a [float] that is only ever compared is the
      rational [Q] it denotes (no float arithmetic happens in the code
      modelled here).
    - The caller's [stops] argument is a reference to a list object: the
      [heap] maps references to list objects, so that [stops.append(0)]
      is seen by everybody who holds the reference.
    - [random.random()] reads the process-wide generator: the world holds
      the sequence of values the generator will deliver and how many of
      them have been consumed.
    - Code that can raise lives in a state-and-exception monad [M]. *)

From Stdlib Require Import ZArith QArith Lia String.
From stdpp Require Import base option list gmap sets.

Local Open Scope Z_scope.

(** ** The world: list objects and the random generator *)

Definition loc := nat.

Record world := World {
  heap : gmap loc (list Z);   (* the list objects of the process *)
  rng_draws : nat -> Q;       (* what random.random() will deliver *)
  rng_pos : nat               (* number of values delivered so far *)
}.

Definition set_heap (h : gmap loc (list Z)) (w : world) : world :=
  World h (rng_draws w) (rng_pos w).

Definition advance (k : nat) (w : world) : world :=
  World (heap w) (rng_draws w) (k + rng_pos w)%nat.

Inductive exn :=
| ValueError (msg : string)
| AttributeError (msg : string).

Inductive outcome (A : Type) :=
| Ok (a : A) (w : world)
| Raise (e : exn) (w : world).
Arguments Ok {A} a w.
Arguments Raise {A} e w.

Definition M (A : Type) : Type := world -> outcome A.

#[global] Instance M_ret : MRet M := fun A a w => Ok a w.

#[global] Instance M_bind : MBind M := fun A B f m w =>
  match m w with
  | Ok a w' => f a w'
  | Raise e w' => Raise e w'
  end.

Definition raise {A} (e : exn) : M A := fun w => Raise e w.

(** ** Python primitives used by the code *)

(** [random.random()] *)
Definition random : M Q := fun w =>
  Ok (rng_draws w (rng_pos w)) (advance 1 w).

(** [l.append(x)]; an object that is not a list has no [append]. *)
Definition list_append (l : loc) (x : Z) : M unit := fun w =>
  match heap w !! l with
  | Some xs => Ok tt (set_heap (<[l := xs ++ [x]]> (heap w)) w)
  | None => Raise (AttributeError "object has no attribute 'append'") w
  end.

(** [set(l)] for a list object [l] *)
Definition set_of_list (l : loc) : M (gset Z) := fun w =>
  match heap w !! l with
  | Some xs => Ok (list_to_set xs) w
  | None => Raise (AttributeError "object is not a list") w
  end.

(** A fresh list object, as built by a list display or by [[]] and
    [append] in a row. *)
Definition new_list (xs : list Z) : M loc := fun w =>
  let l := fresh (dom (heap w)) in
  Ok l (set_heap (<[l := xs]> (heap w)) w).

(** [max] and [min] of the items of an iterable, left to right. *)
Definition py_max_list (xs : list Z) : option Z :=
  match xs with
  | [] => None
  | x :: xs' => Some (fold_left Z.max xs' x)
  end.

Definition py_min_list (xs : list Z) : option Z :=
  match xs with
  | [] => None
  | x :: xs' => Some (fold_left Z.min xs' x)
  end.

Definition py_max (s : gset Z) : M Z :=
  match py_max_list (elements s) with
  | Some m => mret m
  | None => raise (ValueError "max() arg is an empty sequence")
  end.

(** [min(l)] for a list object [l] *)
Definition py_min (l : loc) : M Z := fun w =>
  match heap w !! l with
  | Some xs =>
      match py_min_list xs with
      | Some m => Ok m w
      | None => Raise (ValueError "min() arg is an empty sequence") w
      end
  | None => Raise (AttributeError "object is not iterable") w
  end.

(** Truth value of [not x] for [x] a float or [None]. *)
Definition py_not (x : option Q) : bool :=
  match x with
  | None => true
  | Some q => Qeq_bool q 0
  end.

(** [a > b] on floats. *)
Definition Qgtb (a b : Q) : bool := negb (Qle_bool a b).

(** ** sim_league *)

(** The two local variables the loop changes. *)
Record locals := Locals {
  total_stars : Z;
  win_rate : Q
}.

(** One executed loop body, as seen from outside. *)
Record game_log := Game {
  g_before : locals;
  g_cutoff : Q;
  g_after : locals;
  g_return : option Z
}.

Section Loop.

(** What the loop only reads. *)
Variable stars : Z.
Variable stops : gset Z.
Variable quals_stop : Z.
Variable quals_win_rate : Q.

(** The body of the [for] loop after [cutoff = random.random()]: the
    new locals, and the value returned if the body returns. *)
Definition game_body (game : Z) (cutoff : Q) (s : locals)
  : locals * option Z :=
  if Qgtb (win_rate s) cutoff then
    let total := total_stars s + 1 in
    if total =? quals_stop then
      (Locals total quals_win_rate, None)
    else if total =? stars then
      (Locals total (win_rate s), Some (game + 1))
    else
      (Locals total (win_rate s), None)
  else
    if negb (bool_decide (total_stars s ∈ stops)) then
      (Locals (total_stars s - 1) (win_rate s), None)
    else
      (s, None).

(** [for game in range(...)]: [n] games are left, the next one has
    index [game]; falling out of the loop returns 0. *)
Fixpoint for_games (n : nat) (game : Z) (s : locals) : M Z :=
  match n with
  | O => mret 0
  | S n' =>
      cutoff ← random;
      match game_body game cutoff s with
      | (_, Some v) => mret v
      | (s', None) => for_games n' (game + 1) s'
      end
  end.

(** The games of a run, for reasoning: for each executed body the
    locals it started from, the draw, and what it produced, given the
    generator's sequence and position. *)
Fixpoint games (draws : nat -> Q) (n : nat) (game : Z) (pos : nat)
  (s : locals) : list game_log :=
  match n with
  | O => []
  | S n' =>
      let r := game_body game (draws pos) s in
      Game s (draws pos) r.1 r.2 ::
        match r.2 with
        | Some _ => []
        | None => games draws n' (game + 1) (S pos) r.1
        end
  end.

(** The assignment [win_rate = quals_win_rate] is executed in a game
    started from [s] with draw [cutoff]. *)
Definition enters_quals (cutoff : Q) (s : locals) : bool :=
  Qgtb (win_rate s) cutoff && (total_stars s + 1 =? quals_stop).

End Loop.

(** The value a run returns, read off its games. *)
Definition result_of (g : list game_log) : Z :=
  match last g with
  | Some (Game _ _ _ (Some v)) => v
  | _ => 0
  end.

Definition sim_league (stars : Z) (stops : loc) (win_rate : Q)
  (quals_win_rate : option Q) (games_played : Z) : M Z :=
  (* Add 0 "stops", and turn it into a set, to speed searches. *)
  list_append stops 0;;
  stops ← set_of_list stops;
  quals_stop ← py_max stops;
  (* Use the default for "quals_win_rate" if none was supplied. *)
  let quals_win_rate :=
    if py_not quals_win_rate then win_rate
    else default win_rate quals_win_rate (* a float on this branch *) in
  (* Initialize the stars total. *)
  let total_stars := 0 in
  for_games stars stops quals_stop quals_win_rate
    (Z.to_nat games_played) 0 (Locals total_stars win_rate).

(** [quals_stop] as [sim_league] computes it when the list object holds
    [xs] on entry. *)
Definition quals_stop_of (xs : list Z) : option Z :=
  py_max_list (elements (list_to_set (C := gset Z) (xs ++ [0]))).

(** The games of a call of [sim_league] started in world [w]. *)
Definition sim_league_games (stars : Z) (stops : loc) (win_rate : Q)
  (quals_win_rate : option Q) (games_played : Z) (w : world)
  : list game_log :=
  match heap w !! stops with
  | Some xs =>
      let stops := list_to_set (xs ++ [0]) in
      match quals_stop_of xs with
      | Some quals_stop =>
          games stars stops quals_stop
            (if py_not quals_win_rate then win_rate
             else default win_rate quals_win_rate)
            (rng_draws w) (Z.to_nat games_played) 0 (rng_pos w)
            (Locals 0 win_rate)
      | None => []
      end
  | None => []
  end.

(** The star totals of a run: the initial 0, then the total after each
    game. *)
Definition star_totals (g : list game_log) : list Z :=
  0 :: map (fun e => total_stars (g_after e)) g.

(** How many games of a run executed [win_rate = quals_win_rate]. *)
Definition quals_entries (quals_stop : Z) (g : list game_log) : nat :=
  length (List.filter
            (fun e => enters_quals quals_stop (g_cutoff e) (g_before e)) g).

(** ** The script around it *)

Module Script.

(** The options after [docopt] and the conversions [int()] and
    [float()]; a text that does not convert raises before any check
    below is reached and is not modelled. [opt_quals_win_rate] is [None]
    when the option is absent. *)
Record options := Options {
  opt_stars : Z;
  opt_stop : list Z;
  opt_win_rate : Q;
  opt_quals_win_rate : option Q;
  opt_games_played : Z;
  opt_runs : Z
}.

(** The script's global variables once the inputs are checked. *)
Record globals := Globals {
  stars : Z;
  stops : loc;
  win_rate : Q;
  quals_win_rate : Q;
  games_played : Z;
  runs : Z
}.

(** "Check inputs." The messages are the script's, with its inner
    double quotes written as single quotes. *)
Definition check_inputs (DEFAULT_STOPS : loc) (o : options) : M globals :=
  let stars := opt_stars o in
  if negb (stars >? 0) then
    raise (ValueError "Please supply a positive integer for 'stars'.")
  else
  let stops_text := opt_stop o in
  stops ← (match stops_text with
           | [] => mret DEFAULT_STOPS
           | _ =>
               stops ← new_list stops_text;
               m ← py_min stops;
               if m <? 0 then
                 raise (ValueError "Please supply a valid list of stops.")
               else mret stops
           end);
  let win_rate := opt_win_rate o in
  if (Qgtb 0 win_rate || Qgtb win_rate 1)%bool then
    raise (ValueError
      "The value of 'win_rate' must be between 0 and 1 (inclusive).")
  else
  quals_win_rate ← (match opt_quals_win_rate o with
                    | None => mret win_rate
                    | Some quals_win_rate =>
                        if (Qgtb 0 win_rate || Qgtb win_rate 1)%bool then
                          raise (ValueError
      "The value of 'quals_win_rate' must be between 0 and 1 (inclusive).")
                        else mret quals_win_rate
                    end);
  let games_played := opt_games_played o in
  if negb (games_played >? 0) then
    raise (ValueError "Please supply a positive integer for 'games_played'.")
  else
  let runs := opt_runs o in
  if negb (runs >? 0) then
    raise (ValueError "Please supply a positive integer for 'runs'.")
  else
  mret (Globals stars stops win_rate quals_win_rate games_played runs).

(** "Run the simulations.": the results in the order of the runs. *)
Fixpoint run_simulations (n : nat) (g : globals) : M (list Z) :=
  match n with
  | O => mret []
  | S n' =>
      r ← sim_league (stars g) (stops g) (win_rate g)
            (Some (quals_win_rate g)) (games_played g);
      rs ← run_simulations n' g;
      mret (r :: rs)
  end.

(** [(results > 0).sum()] *)
Definition num_quals (results : list Z) : Z :=
  Z.of_nat (length (List.filter (fun r => r >? 0) results)).

(** The script up to [num_quals]: the module's list objects are built,
    the inputs checked, the runs made. *)
Definition script (o : options) : M Z :=
  DEFAULT_STOPS ← new_list [1; 2; 6; 14];
  _default_of_sim_league ← new_list [1; 2; 6; 14];
  g ← check_inputs DEFAULT_STOPS o;
  results ← run_simulations (Z.to_nat (runs g)) g;
  mret (num_quals results).

End Script.



(** The value of the local [quals_win_rate] after the default is applied. *)
Definition quals_rate_used (win_rate : Q) (quals_win_rate : option Q) : Q :=
  if py_not quals_win_rate then win_rate else default win_rate quals_win_rate.

(** A run counts as a qualification when its result is positive, as in
    [results > 0]. *)
Definition qualifies (stars : Z) (stops : loc) (win_rate : Q)
  (quals_win_rate : option Q) (games_played : Z) (w : world) : bool :=
  match sim_league stars stops win_rate quals_win_rate games_played w with
  | Ok v _ => v >? 0
  | Raise _ _ => false
  end.

(** ** Worlds to run the code in *)

(** The Bronze League stops in one list object, every draw 1/4. *)
Definition bronze_world : world :=
  World {[ 0%nat := [1; 2; 6; 14] ]} (fun _ => 1 # 4)%Q 0.

(** One stop at 1 in one list object, every draw [c]. *)
Definition one_stop_world (c : Q) : world :=
  World {[ 0%nat := [1] ]} (fun _ => c) 0.

(** Stops at 1 and 2 in one list object, the draws 1/8 and 3/8 in turn. *)
Definition two_stops_world : world :=
  World {[ 0%nat := [1; 2] ]}
        (fun n => if Nat.even n then 1 # 8 else 3 # 8)%Q 0.

(** The Bronze League stops and a second list object, every draw 1/4. *)
Definition two_lists_world : world :=
  World (<[ 1%nat := [3; 5] ]> {[ 0%nat := [1; 2; 6; 14] ]})
        (fun _ => 1 # 4)%Q 0.

(** No list object yet, the draws [draws]. *)
Definition empty_world (draws : nat -> Q) : world := World ∅ draws 0.

(** * Properties *)

(** ** The primitives *)

(** A draw cannot be both below the rate (a win) and at or above it (a
    loss). *)
Ltac won_and_lost := exfalso; eapply Qlt_not_le; eauto.

Lemma fold_left_max_ge (xs : list Z) (a : Z) :
  a <= fold_left Z.max xs a /\ Forall (fun x => x <= fold_left Z.max xs a) xs.
Proof.
  revert a. induction xs as [|x xs IH]; intros a; simpl.
  - split; [lia | constructor].
  - destruct (IH (Z.max a x)) as [H1 H2]. split; [lia|].
    constructor; [lia | exact H2].
Qed.

Lemma fold_left_max_in (xs : list Z) (a : Z) :
  fold_left Z.max xs a = a \/ In (fold_left Z.max xs a) xs.
Proof.
  revert a. induction xs as [|x xs IH]; intros a; simpl.
  - now left.
  - destruct (IH (Z.max a x)) as [H | H]; [|now right; right].
    rewrite H. destruct (Z.max_spec a x) as [[_ ->] | [_ ->]]; auto.
Qed.

(** [max] of a set that has an element is one of its elements and bounds
    them all. *)
Lemma py_max_list_elements (s : gset Z) (x : Z) :
  x ∈ s ->
  exists m, py_max_list (elements s) = Some m /\ m ∈ s /\
            forall y, y ∈ s -> y <= m.
Proof.
  intros Hx. apply elem_of_elements in Hx.
  destruct (elements s) as [|a xs] eqn:E; [inversion Hx|].
  exists (fold_left Z.max xs a). split; [reflexivity|].
  assert (Hin : forall y, y ∈ s <-> y = a \/ In y xs).
  { intros y. rewrite <- elem_of_elements, E, list_elem_of_In. simpl.
    intuition congruence. }
  split.
  - apply Hin. destruct (fold_left_max_in xs a); auto.
  - intros y Hy. apply Hin in Hy. destruct (fold_left_max_ge xs a) as [H1 H2].
    destruct Hy as [-> | Hy]; [exact H1|].
    rewrite Forall_forall in H2. now apply H2, list_elem_of_In.
Qed.

Lemma Qgtb_true (a b : Q) : Qgtb a b = true <-> (b < a)%Q.
Proof.
  unfold Qgtb. rewrite negb_true_iff. split.
  - intros H. apply Qnot_le_lt. intros Hle.
    apply Qle_bool_iff in Hle. congruence.
  - intros H. destruct (Qle_bool a b) eqn:E; [|reflexivity].
    apply Qle_bool_iff in E. won_and_lost.
Qed.

Lemma Qgtb_false (a b : Q) : Qgtb a b = false <-> (a <= b)%Q.
Proof.
  unfold Qgtb. rewrite negb_false_iff. apply Qle_bool_iff.
Qed.

(** ** The loop and its games *)

Section LoopFacts.

Variable stars : Z.
Variable stops : gset Z.
Variable quals_stop : Z.
Variable quals_win_rate : Q.

Local Abbreviation game_body := (game_body stars stops quals_stop quals_win_rate).
Local Abbreviation for_games := (for_games stars stops quals_stop quals_win_rate).
Local Abbreviation games := (games stars stops quals_stop quals_win_rate).

Lemma advance_advance (j k : nat) (w : world) :
  advance k (advance j w) = advance (j + k) w.
Proof. unfold advance; simpl. f_equal. lia. Qed.

(** The loop returns what its games say and consumes one draw per game. *)
Lemma for_games_games (n : nat) (game : Z) (s : locals) (w : world) :
  let g := games (rng_draws w) n game (rng_pos w) s in
  for_games n game s w = Ok (result_of g) (advance (length g) w).
Proof.
  revert game s w. induction n as [|n IH]; intros game s w; simpl.
  - unfold mret, M_ret, advance. destruct w; reflexivity.
  - unfold mbind, M_bind, random.
    destruct (game_body game (rng_draws w (rng_pos w)) s) as [s' [v|]] eqn:E;
      simpl.
    + unfold mret, M_ret. reflexivity.
    + rewrite IH. simpl. rewrite advance_advance. f_equal.
      unfold result_of. simpl.
      destruct (games _ n (game + 1) (S (rng_pos w)) s'); reflexivity.
Qed.

Lemma game_body_cases (game : Z) (cutoff : Q) (s : locals) :
  let r := game_body game cutoff s in
  ((cutoff < win_rate s)%Q /\
     ((total_stars s + 1 = quals_stop /\
         r = (Locals (total_stars s + 1) quals_win_rate, None)) \/
      (total_stars s + 1 <> quals_stop /\ total_stars s + 1 = stars /\
         r = (Locals (total_stars s + 1) (win_rate s), Some (game + 1))) \/
      (total_stars s + 1 <> quals_stop /\ total_stars s + 1 <> stars /\
         r = (Locals (total_stars s + 1) (win_rate s), None)))) \/
  ((win_rate s <= cutoff)%Q /\
     (((total_stars s ∉ stops) /\
         r = (Locals (total_stars s - 1) (win_rate s), None)) \/
      ((total_stars s ∈ stops) /\ r = (s, None)))).
Proof.
  unfold game_body.
  destruct (Qgtb (win_rate s) cutoff) eqn:Hw.
  - apply Qgtb_true in Hw. left. split; [exact Hw|].
    destruct (Z.eqb_spec (total_stars s + 1) quals_stop); [now left|].
    destruct (Z.eqb_spec (total_stars s + 1) stars); right; [left | right];
      auto.
  - apply Qgtb_false in Hw. right. split; [exact Hw|].
    case_bool_decide; simpl; [right | left]; auto.
Qed.

(** Running the loop for one more game. *)
Lemma games_S (draws : nat -> Q) (n : nat) (game : Z) (pos : nat)
  (s : locals) :
  games draws (S n) game pos s =
  Game s (draws pos) (game_body game (draws pos) s).1
       (game_body game (draws pos) s).2 ::
  match (game_body game (draws pos) s).2 with
  | Some _ => []
  | None => games draws n (game + 1) (S pos) (game_body game (draws pos) s).1
  end.
Proof. reflexivity. Qed.

(** A property of the locals that every body keeps holds at both ends of
    every game. *)
Lemma games_invariant (P : locals -> Prop) (draws : nat -> Q) :
  (forall game cutoff s, P s -> P (game_body game cutoff s).1) ->
  forall n game pos s, P s ->
  Forall (fun e => P (g_before e) /\ P (g_after e)) (games draws n game pos s).
Proof.
  intros Hstep. induction n as [|n IH]; intros game pos s Hs.
  - constructor.
  - rewrite games_S. constructor; [simpl; auto|].
    destruct (game_body game (draws pos) s).2 eqn:E; [constructor|].
    apply IH. now apply Hstep.
Qed.

(** A returned value is the 1-based number of a game of the loop. *)
Lemma games_return_range (draws : nat -> Q) (n : nat) (game : Z) (pos : nat)
  (s : locals) :
  Forall (fun e => forall v, g_return e = Some v ->
                   game + 1 <= v <= game + Z.of_nat n)
         (games draws n game pos s).
Proof.
  revert game pos s. induction n as [|n IH]; intros game pos s.
  - constructor.
  - rewrite games_S. constructor.
    + simpl. intros v Hv.
      destruct (game_body_cases game (draws pos) s)
        as [[_ [[_ E] | [[_ [_ E]] | [_ [_ E]]]]] | [_ [[_ E] | [_ E]]]];
        rewrite E in Hv; simpl in Hv; try discriminate.
      injection Hv as <-. lia.
    + destruct (game_body game (draws pos) s).2; [constructor|].
      eapply Forall_impl; [apply IH|]. simpl. intros e He v Hv.
      specialize (He v Hv). lia.
Qed.

Lemma result_of_in (g : list game_log) :
  result_of g <> 0 ->
  exists e, e ∈ g /\ g_return e = Some (result_of g).
Proof.
  unfold result_of. destruct (last g) as [[b c a [v|]]|] eqn:E; try congruence.
  intros _. exists (Game b c a (Some v)). split; [|reflexivity].
  apply last_Some in E as [g' ->]. set_solver.
Qed.

Lemma result_of_no_return (g : list game_log) :
  Forall (fun e => g_return e = None) g -> result_of g = 0.
Proof.
  intros H. destruct (Z.eq_dec (result_of g) 0) as [|Hne]; [assumption|].
  destruct (result_of_in g Hne) as (e & He & Hr).
  rewrite Forall_forall in H. rewrite (H e He) in Hr. discriminate.
Qed.

(** Every logged game is an execution of the body. *)
Lemma games_entries (draws : nat -> Q) (n : nat) (game : Z) (pos : nat)
  (s : locals) :
  Forall (fun e => exists k, (g_after e, g_return e) =
                             game_body k (g_cutoff e) (g_before e))
         (games draws n game pos s).
Proof.
  revert game pos s. induction n as [|n IH]; intros game pos s.
  - constructor.
  - rewrite games_S. constructor.
    + exists game. simpl. now destruct (game_body game (draws pos) s).
    + destruct (game_body game (draws pos) s).2; [constructor | apply IH].
Qed.

(** The star total stays at or above 0 when 0 is a stop. *)
Lemma game_body_nonneg (game : Z) (cutoff : Q) (s : locals) :
  0 ∈ stops -> 0 <= total_stars s ->
  0 <= total_stars (game_body game cutoff s).1.
Proof.
  intros H0 Hs.
  destruct (game_body_cases game cutoff s)
    as [[_ [[_ E] | [[_ [_ E]] | [_ [_ E]]]]] | [_ [[Hn E] | [_ E]]]];
    rewrite E; simpl; try lia.
  assert (total_stars s <> 0) by (intros Hz; apply Hn; now rewrite Hz).
  lia.
Qed.

(** With the highest stop as the target the second test of a win is
    never reached with a true condition: no game returns. *)
Lemma games_no_return_at_top_stop (draws : nat -> Q) (n : nat) (game : Z)
  (pos : nat) (s : locals) :
  quals_stop = stars ->
  Forall (fun e => g_return e = None) (games draws n game pos s).
Proof.
  intros Heq. revert game pos s. induction n as [|n IH]; intros game pos s.
  - constructor.
  - rewrite games_S.
    assert (E : (game_body game (draws pos) s).2 = None).
    { destruct (game_body_cases game (draws pos) s)
        as [[_ [[_ E] | [[? [? E]] | [_ [_ E]]]]] | [_ [[_ E] | [_ E]]]];
        rewrite E; simpl; congruence. }
    rewrite E. constructor; [reflexivity | apply IH].
Qed.

(** A player who cannot win plays every game, stays where a stop holds
    them, and does not return. *)
Lemma games_all_lost (draws : nat -> Q) (n : nat) (game : Z) (pos : nat)
  (s : locals) :
  (forall i, (win_rate s <= draws i)%Q) ->
  total_stars s ∈ stops ->
  length (games draws n game pos s) = n /\
  Forall (fun e => g_after e = s /\ g_return e = None)
         (games draws n game pos s).
Proof.
  intros Hd Hs. revert game pos. induction n as [|n IH]; intros game pos.
  - split; [reflexivity | constructor].
  - rewrite games_S.
    assert (E : game_body game (draws pos) s = (s, None)).
    { destruct (game_body_cases game (draws pos) s)
        as [[Hw _] | [_ [[Hn _] | [_ E]]]]; [| contradiction | exact E].
      exfalso. eapply Qlt_not_le; [exact Hw | apply Hd]. }
    rewrite E. simpl. destruct (IH (game + 1) (S pos)) as [Hl Hf].
    split; [now rewrite Hl | constructor; auto].
Qed.

(** The highest stop is a floor: a total at or above it stays there. *)
Lemma game_body_floor (game : Z) (cutoff : Q) (s : locals) :
  quals_stop ∈ stops -> quals_stop <= total_stars s ->
  quals_stop <= total_stars (game_body game cutoff s).1.
Proof.
  intros Hq Hs.
  destruct (game_body_cases game cutoff s)
    as [[_ [[_ E] | [[_ [_ E]] | [_ [_ E]]]]] | [_ [[Hn E] | [_ E]]]];
    rewrite E; simpl; try lia.
  assert (total_stars s <> quals_stop) by (intros Hz; apply Hn; now rewrite Hz).
  lia.
Qed.

Lemma games_floor (draws : nat -> Q) (n : nat) (game : Z) (pos : nat)
  (s : locals) (i j : nat) (ti tj : Z) :
  quals_stop ∈ stops ->
  (i <= j)%nat ->
  (total_stars s :: map (fun e => total_stars (g_after e))
                        (games draws n game pos s)) !! i = Some ti ->
  (total_stars s :: map (fun e => total_stars (g_after e))
                        (games draws n game pos s)) !! j = Some tj ->
  quals_stop <= ti -> quals_stop <= tj.
Proof.
  intros Hq. revert n game pos s j. induction i as [|i IH];
    intros n game pos s j Hij Hi Hj Hti.
  - simpl in Hi. injection Hi as <-.
    destruct j as [|j]; [simpl in Hj; congruence|]. simpl in Hj.
    apply list_lookup_fmap_Some in Hj as (e & -> & He).
    pose proof (games_invariant (fun s => quals_stop <= total_stars s) draws
                  (fun g c s' => game_body_floor g c s' Hq)
                  n game pos s Hti) as Hinv.
    rewrite Forall_forall in Hinv.
    apply (Hinv e). eapply list_elem_of_lookup_2; eauto.
  - destruct j as [|j]; [lia|]. simpl in Hi, Hj.
    destruct n as [|n]; [simpl in Hi; discriminate|].
    rewrite games_S in Hi, Hj. simpl in Hi, Hj.
    destruct (game_body game (draws pos) s).2.
    + destruct i; [|discriminate]. destruct j; [|discriminate].
      simpl in Hi, Hj. congruence.
    + eapply (IH n (game + 1) (S pos) (game_body game (draws pos) s).1 j);
        eauto; lia.
Qed.

Lemma enters_quals_spec (cutoff : Q) (s : locals) :
  enters_quals quals_stop cutoff s = true <->
  (cutoff < win_rate s)%Q /\ total_stars s + 1 = quals_stop.
Proof.
  unfold enters_quals. rewrite andb_true_iff, Qgtb_true, Z.eqb_eq. tauto.
Qed.

(** No game started at or above the highest stop switches the rate. *)
Lemma games_no_entry_above (draws : nat -> Q) (n : nat) (game : Z)
  (pos : nat) (s : locals) :
  quals_stop ∈ stops -> quals_stop <= total_stars s ->
  quals_entries quals_stop (games draws n game pos s) = 0%nat.
Proof.
  intros Hq Hs. unfold quals_entries.
  pose proof (games_invariant (fun s => quals_stop <= total_stars s) draws
                (fun g c s' => game_body_floor g c s' Hq)
                n game pos s Hs) as Hinv.
  induction Hinv as [|e g [He _] _ IHg]; [reflexivity|].
  simpl. destruct (enters_quals quals_stop (g_cutoff e) (g_before e)) eqn:E;
    [|exact IHg].
  apply enters_quals_spec in E. lia.
Qed.

(** The rate is switched in at most one game of a run. *)
Lemma games_enter_quals_once (draws : nat -> Q) (n : nat) (game : Z)
  (pos : nat) (s : locals) :
  quals_stop ∈ stops ->
  (quals_entries quals_stop (games draws n game pos s) <= 1)%nat.
Proof.
  intros Hq. revert game pos s. induction n as [|n IH]; intros game pos s.
  - simpl. unfold quals_entries. simpl. lia.
  - rewrite games_S. unfold quals_entries. simpl.
    destruct (enters_quals quals_stop (draws pos) s) eqn:E.
    + apply enters_quals_spec in E as [Hw Ht].
      assert (Hb : game_body game (draws pos) s =
                   (Locals (total_stars s + 1) quals_win_rate, None)).
      { destruct (game_body_cases game (draws pos) s)
          as [[_ [[_ B] | [[? _] | [? _]]]] | [Hl _]];
          [exact B | contradiction | contradiction |].
        won_and_lost. }
      rewrite Hb. simpl.
      pose proof (games_no_entry_above draws n (game + 1) (S pos)
                    (Locals (total_stars s + 1) quals_win_rate) Hq) as Z0.
      unfold quals_entries in Z0. rewrite Z0; [lia | simpl; lia].
    + destruct (game_body game (draws pos) s).2; [simpl; lia|].
      apply IH.
Qed.

(** What a body returns, and what it does to the total and to the rate. *)
Lemma game_body_return (game : Z) (cutoff : Q) (s : locals) (v : Z) :
  (game_body game cutoff s).2 = Some v <->
  (cutoff < win_rate s)%Q /\ total_stars s + 1 <> quals_stop /\
  total_stars s + 1 = stars /\ v = game + 1.
Proof.
  destruct (game_body_cases game cutoff s)
    as [[Hw [[? E] | [[? [? E]] | [? [? E]]]]] | [Hl [[? E] | [? E]]]];
    rewrite E; simpl; split; try intuition congruence.
  all: intros [Hw _]; won_and_lost.
Qed.

Lemma game_body_win_total (game : Z) (cutoff : Q) (s : locals) :
  (cutoff < win_rate s)%Q ->
  total_stars (game_body game cutoff s).1 = total_stars s + 1.
Proof.
  intros Hw.
  destruct (game_body_cases game cutoff s)
    as [[_ [[? E] | [[? [? E]] | [? [? E]]]]] | [Hl _]];
    try (rewrite E; reflexivity).
  won_and_lost.
Qed.

Lemma game_body_loss_total (game : Z) (cutoff : Q) (s : locals) :
  (win_rate s <= cutoff)%Q ->
  total_stars (game_body game cutoff s).1 =
  if bool_decide (total_stars s ∈ stops) then total_stars s
  else total_stars s - 1.
Proof.
  intros Hl.
  destruct (game_body_cases game cutoff s) as [[Hw _] | [_ [[? E] | [? E]]]].
  - won_and_lost.
  - rewrite E. simpl. now rewrite bool_decide_eq_false_2.
  - rewrite E. simpl. now rewrite bool_decide_eq_true_2.
Qed.

Lemma game_body_rate (game : Z) (cutoff : Q) (s : locals) :
  quals_win_rate = win_rate s ->
  win_rate (game_body game cutoff s).1 = win_rate s.
Proof.
  intros Hr.
  destruct (game_body_cases game cutoff s)
    as [[_ [[? E] | [[? [? E]] | [? [? E]]]]] | [_ [[? E] | [? E]]]];
    rewrite E; simpl; congruence.
Qed.

Lemma result_of_cons_no_return (b : locals) (c : Q) (a : locals)
  (g : list game_log) :
  result_of (Game b c a None :: g) = result_of g.
Proof. unfold result_of. now destruct g. Qed.

(** A target of 0 or less is never hit: the total after a win is at
    least 1. *)
Lemma games_no_return_low_target (draws : nat -> Q) (n : nat) (game : Z)
  (pos : nat) (s : locals) :
  0 ∈ stops -> stars <= 0 -> 0 <= total_stars s ->
  Forall (fun e => g_return e = None) (games draws n game pos s).
Proof.
  intros H0 Hst Hs. revert game pos s Hs.
  induction n as [|n IH]; intros game pos s Hs; [constructor|].
  rewrite games_S.
  destruct (game_body game (draws pos) s).2 as [v|] eqn:E.
  - apply game_body_return in E. lia.
  - constructor; [reflexivity|]. apply IH. now apply game_body_nonneg.
Qed.

(** A game that returns is the last one. *)
Lemma games_return_last (draws : nat -> Q) (n : nat) (game : Z) (pos : nat)
  (s : locals) (g : list game_log) (e : game_log) :
  games draws n game pos s = g ++ [e] ->
  Forall (fun e' => g_return e' = None) g.
Proof.
  revert game pos s g. induction n as [|n IH]; intros game pos s g.
  - simpl. intros H. now destruct g.
  - rewrite games_S. destruct g as [|e' g]; [constructor|].
    simpl. intros H. injection H as <- H.
    destruct (game_body game (draws pos) s).2 eqn:E.
    + now destruct g.
    + constructor; [reflexivity | eauto].
Qed.

End LoopFacts.

(** ** sim_league as a whole *)

(** The implicit stop 0 makes the set non-empty, so [max] succeeds; its
    value is a stop, bounds the stops, and is not negative. *)
Lemma quals_stop_of_spec (xs : list Z) :
  exists q, quals_stop_of xs = Some q /\
            q ∈ (list_to_set (xs ++ [0]) : gset Z) /\
            (forall y, y ∈ (list_to_set (xs ++ [0]) : gset Z) -> y <= q) /\
            0 <= q.
Proof.
  assert (H0 : 0 ∈ (list_to_set (xs ++ [0]) : gset Z)) by set_solver.
  destruct (py_max_list_elements _ 0 H0) as (q & Hq & Hin & Hmax).
  exists q. repeat split; auto.
Qed.

(** A call on a list object returns the result of its games, leaves the
    generator advanced by one draw per game, and leaves the list object
    with one more item. *)
Lemma sim_league_run (stars : Z) (l : loc) (wr : Q) (qwr : option Q)
  (gp : Z) (w : world) (xs : list Z) :
  heap w !! l = Some xs ->
  let g := sim_league_games stars l wr qwr gp w in
  sim_league stars l wr qwr gp w =
  Ok (result_of g)
     (advance (length g) (set_heap (<[l := xs ++ [0]]> (heap w)) w)).
Proof.
  intros Hl. unfold sim_league, sim_league_games.
  unfold mbind, M_bind, list_append, set_of_list. rewrite Hl. simpl.
  rewrite lookup_insert_eq.
  destruct (quals_stop_of_spec xs) as (q & Hq & _).
  unfold py_max. unfold quals_stop_of in Hq |- *. rewrite Hq.
  unfold mret, M_ret. rewrite for_games_games. reflexivity.
Qed.

Lemma sim_league_returns (stars : Z) (l : loc) (wr : Q) (qwr : option Q)
  (gp : Z) (w : world) (xs : list Z) :
  heap w !! l = Some xs ->
  exists v w', sim_league stars l wr qwr gp w = Ok v w' /\
               (v = 0 \/ 1 <= v <= gp).
Proof.
  intros Hl. rewrite (sim_league_run _ _ _ _ _ _ _ Hl).
  eexists _, _. split; [reflexivity|].
  remember (result_of (sim_league_games stars l wr qwr gp w)) as v eqn:Ev.
  destruct (Z.eq_dec v 0) as [|Hne]; [now left | right].
  rewrite Ev in Hne. destruct (result_of_in _ Hne) as (e & He & Hr).
  rewrite <- Ev in Hr. clear Ev Hne. revert He.
  unfold sim_league_games. rewrite Hl.
  destruct (quals_stop_of xs) as [q|]; [|intros H; inversion H].
  intros He. pose proof (games_return_range) as R.
  specialize (R stars (list_to_set (xs ++ [0])) q
                (if py_not qwr then wr else default wr qwr)
                (rng_draws w) (Z.to_nat gp) 0 (rng_pos w) (Locals 0 wr)).
  rewrite Forall_forall in R. specialize (R e He _ Hr). lia.
Qed.

(** A call appends 0 to the list object it was given and touches no other
    list object. *)
Lemma sim_league_appends (stars : Z) (l : loc) (wr : Q) (qwr : option Q)
  (gp : Z) (w : world) (xs : list Z) :
  heap w !! l = Some xs ->
  exists v w', sim_league stars l wr qwr gp w = Ok v w' /\
               heap w' = <[l := xs ++ [0]]> (heap w).
Proof.
  intros Hl. rewrite (sim_league_run _ _ _ _ _ _ _ Hl).
  eexists _, _. split; reflexivity.
Qed.

(** A quals win rate of 0 is taken for a missing one. *)
Lemma sim_league_zero_quals_rate (stars : Z) (l : loc) (wr q : Q) (gp : Z) :
  (q == 0)%Q ->
  sim_league stars l wr (Some q) gp = sim_league stars l wr None gp.
Proof.
  intros Hq. unfold sim_league. simpl.
  now rewrite (Qeq_eq_bool _ _ Hq).
Qed.

(** With the highest stop equal to [stars] no call ever reports a
    qualification. *)
Lemma sim_league_top_stop_is_target (stars : Z) (l : loc) (wr : Q)
  (qwr : option Q) (gp : Z) (w : world) (xs : list Z) :
  heap w !! l = Some xs ->
  quals_stop_of xs = Some stars ->
  exists w', sim_league stars l wr qwr gp w = Ok 0 w'.
Proof.
  intros Hl Hq. rewrite (sim_league_run _ _ _ _ _ _ _ Hl).
  eexists. f_equal. apply result_of_no_return.
  unfold sim_league_games. rewrite Hl, Hq.
  now apply games_no_return_at_top_stop.
Qed.

(** ** The statements of the specification *)

(** C1: a win that raises the total to [stars] makes the call return the
    game's number, also when [stars] is the highest stop. The code tests
    [total_stars == stars] only in the [elif] of the test for the highest
    stop: with [stars = 1], [stops = [1]], [win_rate = 1] and draws 0,
    the first game is a win to 1 star, the call goes on, and 0 comes
    back after the three games. *)
Theorem target_at_top_stop_returns_0 :
  let w := one_stop_world 0 in
  quals_stop_of [1] = Some 1 /\
  map (fun e => (Qgtb (win_rate (g_before e)) (g_cutoff e),
                 total_stars (g_after e)))
      (sim_league_games 1 0%nat 1 None 3 w)
  = [(true, 1); (true, 2); (true, 3)] /\
  exists w', sim_league 1 0%nat 1 None 3 w = Ok 0 w' /\ rng_pos w' = 3%nat.
Proof.
  split; [vm_compute; reflexivity|].
  split; [vm_compute; reflexivity|].
  eexists. split; vm_compute; reflexivity.
Qed.

(** C2: a quals win rate given as 0 is the win rate of every game after
    the highest stop is reached. The code replaces it by [win_rate]
    ([not 0.0] is true): with [stars = 2], [stops = [1]],
    [win_rate = 1/2], [quals_win_rate = 0] and draws 1/4, the second game
    is played at 1/2, is won, and the call returns 2. *)
Theorem zero_quals_rate_is_ignored :
  let w := one_stop_world (1 # 4) in
  map (fun e => (total_stars (g_before e), win_rate (g_before e)))
      (sim_league_games 2 0%nat (1 # 2) (Some 0%Q) 5 w)
  = [(0, (1 # 2)%Q); (1, (1 # 2)%Q)] /\
  exists w', sim_league 2 0%nat (1 # 2) (Some 0%Q) 5 w = Ok 2 w'.
Proof.
  split; [vm_compute; reflexivity|].
  eexists. vm_compute. reflexivity.
Qed.

(** C3: a call leaves the caller's list of stops as it was. The code
    appends 0 to that very list object: after one call on the Bronze
    League stops the caller's list is [1; 2; 6; 14; 0], and after the
    script's five runs with default stops [DEFAULT_STOPS] ends in five
    zeros. For the same reason an iterable of stops that is not a list
    (reference 7 is no list object here) makes the call raise. *)
Theorem sim_league_changes_the_callers_list :
  (exists v w', sim_league 19 0%nat (1 # 2) None 200 bronze_world = Ok v w' /\
                heap bronze_world !! 0%nat = Some [1; 2; 6; 14] /\
                heap w' !! 0%nat = Some [1; 2; 6; 14; 0]) /\
  (exists n w', Script.script (Script.Options 19 [] (1 # 2) None 200 5)
                  (empty_world (fun _ => 1 # 4)%Q) = Ok n w' /\
                heap w' !! 0%nat = Some [1; 2; 6; 14; 0; 0; 0; 0; 0]) /\
  (exists e, sim_league 19 7%nat (1 # 2) None 200 bronze_world
             = Raise (AttributeError e) bronze_world).
Proof.
  split; [|split].
  - eexists _, _. split; [vm_compute; reflexivity|].
    split; vm_compute; reflexivity.
  - eexists _, _. split; vm_compute; reflexivity.
  - eexists. vm_compute. reflexivity.
Qed.

(** C4: a quals win rate outside [0, 1] is refused with a [ValueError].
    The check made after [float(quals_win_rate_text)] tests [win_rate]
    again: [--win_rate=0.5 --quals_win_rate=2.0] passes the checks and
    the runs are made with 2 as the quals win rate. *)
Theorem quals_win_rate_2_is_accepted :
  let o := Script.Options 19 [] (1 # 2) (Some 2%Q) 200 1000 in
  let w := World {[ 0%nat := [1; 2; 6; 14] ]} (fun _ => 1 # 4)%Q 0 in
  Script.check_inputs 0%nat o w =
  Ok (Script.Globals 19 0%nat (1 # 2) 2 200 1000) w.
Proof. reflexivity. Qed.

(** C5: with a budget of at least one game, a call on a list of stops
    returns normally, and the value returned is 0 or a game number between
    1 and [games_played]. *)
Theorem sim_league_result_in_range (stars : Z) (l : loc) (wr : Q)
  (qwr : option Q) (gp : Z) (w : world) (xs : list Z) :
  heap w !! l = Some xs ->
  1 <= gp ->
  exists v w', sim_league stars l wr qwr gp w = Ok v w' /\
               (v = 0 \/ 1 <= v <= gp).
Proof. intros Hl _. now apply sim_league_returns with xs. Qed.

Lemma sim_league_result_in_range_witness :
  heap bronze_world !! 0%nat = Some [1; 2; 6; 14] /\
  exists v w', sim_league 19 0%nat (1 # 2) None 200 bronze_world = Ok v w' /\
               (v = 0 \/ 1 <= v <= 200).
Proof.
  assert (H : heap bronze_world !! 0%nat = Some [1; 2; 6; 14])
    by (vm_compute; reflexivity).
  split; [exact H|].
  apply (sim_league_result_in_range 19 0%nat (1 # 2)%Q None 200
           bronze_world [1; 2; 6; 14] H).
  lia.
Defined.

(** C6: in every run the star total is never negative; 0 is a stop of
    every run, and a game lost at 0 stars leaves the total at 0. The run is
    that of the call: the call returns the result of these games and draws
    once per game. *)
Theorem star_total_never_negative (stars : Z) (l : loc) (wr : Q)
  (qwr : option Q) (gp : Z) (w : world) (xs : list Z) :
  heap w !! l = Some xs ->
  let g := sim_league_games stars l wr qwr gp w in
  (exists w', sim_league stars l wr qwr gp w = Ok (result_of g) w' /\
              rng_pos w' = (length g + rng_pos w)%nat) /\
  Forall (fun t => 0 <= t) (star_totals g) /\
  Forall (fun e => total_stars (g_before e) = 0 ->
                   Qgtb (win_rate (g_before e)) (g_cutoff e) = false ->
                   total_stars (g_after e) = 0) g.
Proof.
  intros Hl. split.
  { rewrite (sim_league_run _ _ _ _ _ _ _ Hl). eexists. split; reflexivity. }
  unfold sim_league_games. rewrite Hl.
  destruct (quals_stop_of xs) as [q|];
    [|split; [repeat constructor; lia | constructor]].
  unfold star_totals.
  set (stops := list_to_set (xs ++ [0]) : gset Z).
  assert (H0 : 0 ∈ stops) by (subst stops; set_solver).
  split.
  - constructor; [lia|]. apply Forall_map.
    eapply Forall_impl;
      [apply (games_invariant stars stops q _ (fun s => 0 <= total_stars s))|].
    + intros game c s. now apply game_body_nonneg.
    + simpl. lia.
    + simpl. tauto.
  - eapply Forall_impl; [apply games_entries|]. simpl.
    intros e [k Hk] Hz Hlost. apply Qgtb_false in Hlost.
    destruct (game_body_cases stars stops q
                (if py_not qwr then wr else default wr qwr)
                k (g_cutoff e) (g_before e))
      as [[Hw _] | [_ [[Hn _] | [_ E]]]].
    + won_and_lost.
    + exfalso. apply Hn. now rewrite Hz.
    + rewrite E in Hk. injection Hk as -> _. exact Hz.
Qed.

Lemma star_total_never_negative_witness :
  let g := sim_league_games 19 0%nat (1 # 2) None 200 bronze_world in
  length g = 19%nat /\
  (exists w', sim_league 19 0%nat (1 # 2) None 200 bronze_world
              = Ok (result_of g) w' /\
              rng_pos w' = (length g + rng_pos bronze_world)%nat) /\
  Forall (fun t => 0 <= t) (star_totals g) /\
  Forall (fun e => total_stars (g_before e) = 0 ->
                   Qgtb (win_rate (g_before e)) (g_cutoff e) = false ->
                   total_stars (g_after e) = 0) g.
Proof.
  split; [vm_compute; reflexivity|].
  apply (star_total_never_negative 19 0%nat (1 # 2)%Q None 200 bronze_world
           [1; 2; 6; 14]).
  vm_compute; reflexivity.
Defined.

(** C8: a draw equal to the current win rate is a loss; and with a win
    rate of 0 and draws from [0, 1) every game is lost: the call returns 0
    and has consumed exactly [games_played] draws. *)
Theorem zero_win_rate_uses_the_whole_budget :
  (forall stars stops quals_stop quals_win_rate game cutoff s,
     (cutoff == win_rate s)%Q ->
     game_body stars stops quals_stop quals_win_rate game cutoff s =
     if negb (bool_decide (total_stars s ∈ stops))
     then (Locals (total_stars s - 1) (win_rate s), None)
     else (s, None)) /\
  (forall stars l wr qwr gp w xs,
     heap w !! l = Some xs ->
     0 < stars ->
     (wr == 0)%Q ->
     (forall i, (0 <= rng_draws w i)%Q) ->
     exists w', sim_league stars l wr qwr gp w = Ok 0 w' /\
                rng_pos w' = (Z.to_nat gp + rng_pos w)%nat).
Proof.
  split.
  - intros stars stops q qw game cutoff s Heq. unfold game_body.
    replace (Qgtb (win_rate s) cutoff) with false; [reflexivity|].
    symmetry. apply Qgtb_false. rewrite Heq. apply Qle_refl.
  - intros stars l wr qwr gp w xs Hl _ Hwr Hd.
    rewrite (sim_league_run _ _ _ _ _ _ _ Hl).
    unfold sim_league_games. rewrite Hl.
    destruct (quals_stop_of xs) as [q|] eqn:Hq.
    2:{ destruct (quals_stop_of_spec xs) as (q & Hq' & _). congruence. }
    destruct (games_all_lost stars (list_to_set (xs ++ [0])) q
                (if py_not qwr then wr else default wr qwr)
                (rng_draws w) (Z.to_nat gp) 0 (rng_pos w) (Locals 0 wr))
      as [Hlen Hall].
    + intros i. simpl. rewrite Hwr. apply Hd.
    + simpl. set_solver.
    + eexists. split.
      * f_equal. apply result_of_no_return.
        eapply Forall_impl; [exact Hall|]. simpl. tauto.
      * simpl. now rewrite Hlen.
Qed.

Lemma zero_win_rate_uses_the_whole_budget_witness :
  exists w', sim_league 19 0%nat 0 (Some (1 # 2)%Q) 200 bronze_world = Ok 0 w' /\
             rng_pos w' = 200%nat.
Proof.
  destruct zero_win_rate_uses_the_whole_budget as [_ H].
  apply (H 19 0%nat 0%Q (Some (1 # 2)%Q) 200 bronze_world [1; 2; 6; 14]).
  - vm_compute; reflexivity.
  - lia.
  - reflexivity.
  - intros i. simpl. unfold Qle. simpl. lia.
Defined.

(** C9: when the highest stop is not below [stars], a call on a list of
    stops still returns normally, with 0 or a game number between 1 and
    [games_played]. *)
Theorem sim_league_returns_when_top_stop_reaches_target (stars : Z) (l : loc)
  (wr : Q) (qwr : option Q) (gp : Z) (w : world) (xs : list Z) (q : Z) :
  heap w !! l = Some xs ->
  quals_stop_of xs = Some q ->
  stars <= q ->
  exists v w', sim_league stars l wr qwr gp w = Ok v w' /\
               (v = 0 \/ 1 <= v <= gp).
Proof. intros Hl _ _. now apply sim_league_returns with xs. Qed.

Lemma sim_league_returns_when_top_stop_reaches_target_witness :
  exists v w', sim_league 10 0%nat (1 # 2) None 200 bronze_world = Ok v w' /\
               (v = 0 \/ 1 <= v <= 200).
Proof.
  apply (sim_league_returns_when_top_stop_reaches_target 10 0%nat (1 # 2)%Q
           None 200 bronze_world [1; 2; 6; 14] 14).
  - vm_compute; reflexivity.
  - vm_compute; reflexivity.
  - lia.
Defined.

(** C10: the highest stop is a floor for the star total from the moment
    the total reaches it to the end of the run, and the assignment
    [win_rate = quals_win_rate] is executed in at most one game of a run.
    The run is that of the call: the call returns the result of these
    games and draws once per game. *)
Theorem top_stop_is_an_absorbing_floor (stars : Z) (l : loc) (wr : Q)
  (qwr : option Q) (gp : Z) (w : world) (xs : list Z) (q : Z) :
  heap w !! l = Some xs ->
  quals_stop_of xs = Some q ->
  let g := sim_league_games stars l wr qwr gp w in
  (exists w', sim_league stars l wr qwr gp w = Ok (result_of g) w' /\
              rng_pos w' = (length g + rng_pos w)%nat) /\
  (forall i j ti tj,
     (i <= j)%nat ->
     star_totals g !! i = Some ti ->
     star_totals g !! j = Some tj ->
     q <= ti -> q <= tj) /\
  (quals_entries q g <= 1)%nat.
Proof.
  intros Hl Hq. split.
  { rewrite (sim_league_run _ _ _ _ _ _ _ Hl). eexists. split; reflexivity. }
  unfold sim_league_games, star_totals. rewrite Hl, Hq.
  destruct (quals_stop_of_spec xs) as (q' & Hq' & Hin & _).
  assert (q' = q) as -> by congruence.
  split.
  - intros i j ti tj.
    apply (games_floor stars (list_to_set (xs ++ [0])) q _ (rng_draws w)
             (Z.to_nat gp) 0 (rng_pos w) (Locals 0 wr) i j ti tj Hin).
  - now apply games_enter_quals_once.
Qed.

Lemma top_stop_is_an_absorbing_floor_witness :
  let g := sim_league_games 19 0%nat (1 # 2) (Some (1 # 5)%Q) 200 bronze_world in
  star_totals g !! 14%nat = Some 14 /\
  quals_entries 14 g = 1%nat /\
  (exists w', sim_league 19 0%nat (1 # 2) (Some (1 # 5)%Q) 200 bronze_world
              = Ok (result_of g) w' /\
              rng_pos w' = (length g + rng_pos bronze_world)%nat) /\
  (forall i j ti tj,
     (i <= j)%nat ->
     star_totals g !! i = Some ti ->
     star_totals g !! j = Some tj ->
     14 <= ti -> 14 <= tj) /\
  (quals_entries 14 g <= 1)%nat.
Proof.
  split; [vm_compute; reflexivity|].
  split; [vm_compute; reflexivity|].
  apply (top_stop_is_an_absorbing_floor 19 0%nat (1 # 2)%Q (Some (1 # 5)%Q)
           200 bronze_world [1; 2; 6; 14] 14).
  - vm_compute; reflexivity.
  - vm_compute; reflexivity.
Defined.

(** ** Two runs on the same draws *)

Section Monotone.

Variable stars : Z.
Variable stops : gset Z.
Variable quals_stop : Z.
Variables r1 r2 : Q.

Hypothesis rates : (r1 <= r2)%Q.
Hypothesis zero_stop : 0 ∈ stops.
Hypothesis target_above : quals_stop <> stars.

(** The run at the higher rate is never behind: if the run at [r1]
    returns a game number, the run at [r2] returns one that is not
    larger. *)
Lemma games_monotone (draws : nat -> Q) (n : nat) (game : Z) (pos : nat)
  (s1 s2 : locals) :
  0 <= game ->
  win_rate s1 = r1 -> win_rate s2 = r2 ->
  0 <= total_stars s1 <= total_stars s2 ->
  total_stars s2 < stars ->
  let v1 := result_of (games stars stops quals_stop r1 draws n game pos s1) in
  let v2 := result_of (games stars stops quals_stop r2 draws n game pos s2) in
  v1 <> 0 -> v2 <> 0 /\ v2 <= v1.
Proof.
  revert game pos s1 s2. induction n as [|n IH];
    intros game pos s1 s2 Hg Hr1 Hr2 Ht Hs2; simpl;
    [intros H; exfalso; apply H; reflexivity|].
  set (c := draws pos).
  set (b1 := game_body stars stops quals_stop r1 game c s1).
  set (b2 := game_body stars stops quals_stop r2 game c s2).
  pose proof (games_return_range stars stops quals_stop r1 draws n (game + 1)
                (S pos) b1.1) as R1.
  destruct b1.2 as [v1|] eqn:E1.
  - (* the run at r1 returns in this game: so does the other *)
    apply game_body_return in E1 as (Hw & Hq & Hst & ->).
    assert (E2 : b2.2 = Some (game + 1)).
    { apply game_body_return. rewrite Hr2. rewrite Hr1 in Hw.
      repeat split; try lia.
      eapply Qlt_le_trans; eauto. }
    rewrite E2. unfold result_of; simpl. lia.
  - rewrite result_of_cons_no_return. intros Hv1.
    destruct (result_of_in _ Hv1) as (e & He & Hret).
    rewrite Forall_forall in R1. specialize (R1 e He _ Hret).
    destruct b2.2 as [v2|] eqn:E2.
    + apply game_body_return in E2 as (_ & _ & _ & ->).
      change (result_of [Game s2 c b2.1 (Some (game + 1))]) with (game + 1).
      lia.
    + rewrite result_of_cons_no_return.
      apply IH; try lia; subst b1 b2.
      * now rewrite game_body_rate.
      * now rewrite game_body_rate.
      * split; [now apply game_body_nonneg|].
        destruct (Qlt_le_dec c (win_rate s1)) as [W1 | L1];
          destruct (Qlt_le_dec c (win_rate s2)) as [W2 | L2].
        -- rewrite !game_body_win_total by assumption. lia.
        -- exfalso. rewrite Hr1 in W1. rewrite Hr2 in L2.
           eapply Qlt_not_le; [exact W1|]. eapply Qle_trans; eauto.
        -- rewrite game_body_loss_total, game_body_win_total by assumption.
           case_bool_decide; lia.
        -- rewrite !game_body_loss_total by assumption.
           destruct (Z.eq_dec (total_stars s1) (total_stars s2)) as [<- | Hne];
             repeat case_bool_decide; try lia; contradiction.
      * destruct (Qlt_le_dec c (win_rate s2)) as [W2 | L2].
        -- rewrite game_body_win_total by assumption.
           assert (total_stars s2 + 1 <> stars); [|lia].
           intros Hst.
           assert (Hx : (game_body stars stops quals_stop r2 game c s2).2
                        = Some (game + 1)).
           { apply game_body_return. repeat split; auto; lia. }
           congruence.
        -- rewrite game_body_loss_total by assumption.
           case_bool_decide; lia.
Qed.

End Monotone.

Lemma filter_length_mono {A : Type} (f g : A -> bool) (xs : list A) :
  Forall (fun x => f x = true -> g x = true) xs ->
  (length (List.filter f xs) <= length (List.filter g xs))%nat.
Proof.
  induction 1 as [|x xs Hx _ IH]; simpl; [lia|].
  destruct (f x) eqn:Ef.
  - rewrite (Hx eq_refl). simpl. lia.
  - destruct (g x); simpl; lia.
Qed.

(** With no quals win rate given, a run that qualifies at rate [r1]
    qualifies no later at any rate [r2] above [r1], on the same draws. *)
Lemma sim_league_monotone (stars : Z) (l : loc) (gp : Z) (r1 r2 : Q)
  (w : world) (xs : list Z) (q : Z) (v1 : Z) (w1 : world) :
  (r1 <= r2)%Q ->
  heap w !! l = Some xs ->
  quals_stop_of xs = Some q ->
  q < stars ->
  sim_league stars l r1 None gp w = Ok v1 w1 ->
  v1 <> 0 ->
  exists v2 w2, sim_league stars l r2 None gp w = Ok v2 w2 /\
                v2 <> 0 /\ v2 <= v1.
Proof.
  intros Hr Hl Hq Hlt. rewrite !(sim_league_run _ _ _ _ _ _ _ Hl).
  unfold sim_league_games. rewrite Hl, Hq. simpl.
  intros H Hv1. injection H as <- _.
  eexists _, _. split; [reflexivity|].
  assert (H0 : 0 ∈ (list_to_set (xs ++ [0]) : gset Z)) by set_solver.
  destruct (Z_le_gt_dec stars 0) as [Hlow | Hpos].
  - exfalso. apply Hv1, result_of_no_return.
    now apply games_no_return_low_target.
  - apply (games_monotone stars (list_to_set (xs ++ [0])) q r1 r2); simpl;
      auto; lia.
Qed.

Lemma qualifies_monotone (stars : Z) (l : loc) (gp : Z) (r1 r2 : Q)
  (w : world) (xs : list Z) (q : Z) :
  (r1 <= r2)%Q ->
  heap w !! l = Some xs ->
  quals_stop_of xs = Some q ->
  q < stars ->
  qualifies stars l r1 None gp w = true ->
  qualifies stars l r2 None gp w = true.
Proof.
  intros Hr Hl Hq Hlt. unfold qualifies.
  destruct (sim_league stars l r1 None gp w) as [v1 w1|] eqn:E1;
    [|discriminate].
  intros Hv1. apply Z.gtb_lt in Hv1.
  destruct (sim_league_monotone stars l gp r1 r2 w xs q v1 w1)
    as (v2 & w2 & E2 & Hne & Hle); auto; [lia|].
  rewrite E2.
  destruct (sim_league_returns stars l r2 None gp w xs Hl)
    as (v & w' & E & Hv).
  rewrite E2 in E. injection E as <- _. apply Z.gtb_lt. lia.
Qed.

(** C7: with the other arguments fixed, no quals win rate given and the
    highest stop below [stars], a run that qualifies at win rate [r1]
    qualifies, on the same draws, at a game number no larger at any win
    rate [r2 >= r1]; hence over any family of draw sequences the number of
    qualifying runs (and so their proportion, and its expectation over the
    draws) does not decrease from [r1] to [r2]. *)
Theorem higher_win_rate_qualifies_no_later (stars : Z) (l : loc) (gp : Z)
  (r1 r2 : Q) :
  (0 <= r1)%Q -> (r1 <= r2)%Q -> (r2 <= 1)%Q ->
  (forall w xs q v1 w1,
     heap w !! l = Some xs ->
     quals_stop_of xs = Some q ->
     q < stars ->
     sim_league stars l r1 None gp w = Ok v1 w1 ->
     v1 <> 0 ->
     exists v2 w2, sim_league stars l r2 None gp w = Ok v2 w2 /\
                   v2 <> 0 /\ v2 <= v1) /\
  (forall ws : list world,
     Forall (fun w => exists xs q, heap w !! l = Some xs /\
                                   quals_stop_of xs = Some q /\
                                   q < stars) ws ->
     (length (List.filter (qualifies stars l r1 None gp) ws) <=
      length (List.filter (qualifies stars l r2 None gp) ws))%nat).
Proof.
  intros _ Hr _. split.
  - intros w xs q v1 w1. now apply sim_league_monotone.
  - intros ws Hws. apply filter_length_mono.
    eapply Forall_impl; [exact Hws|]. simpl.
    intros w (xs & q & Hl & Hq & Hlt). now apply qualifies_monotone with xs q.
Qed.

Lemma higher_win_rate_qualifies_no_later_witness :
  (exists w1, sim_league 3 0%nat (1 # 4) None 10 two_stops_world = Ok 5 w1) /\
  exists v2 w2, sim_league 3 0%nat (1 # 2) None 10 two_stops_world = Ok v2 w2 /\
                v2 <> 0 /\ v2 <= 5.
Proof.
  assert (H1 : exists w1,
             sim_league 3 0%nat (1 # 4) None 10 two_stops_world = Ok 5 w1)
    by (eexists; vm_compute; reflexivity).
  split; [exact H1|]. destruct H1 as [w1 H1].
  assert (Hr : (0 <= 1 # 4)%Q /\ (1 # 4 <= 1 # 2)%Q /\ (1 # 2 <= 1)%Q)
    by (unfold Qle; simpl; lia).
  destruct Hr as (Ha & Hb & Hc).
  destruct (higher_win_rate_qualifies_no_later 3 0%nat 10 (1 # 4)%Q (1 # 2)%Q
              Ha Hb Hc) as [H _].
  apply (H two_stops_world [1; 2] 2 5 w1).
  - vm_compute; reflexivity.
  - vm_compute; reflexivity.
  - lia.
  - exact H1.
  - lia.
Defined.

(** * Further properties of the code *)

(** ** The games of a loop, by index *)

Section GamesByIndex.

Variable stars : Z.
Variable stops : gset Z.
Variable quals_stop : Z.
Variable quals_win_rate : Q.

Local Abbreviation body := (game_body stars stops quals_stop quals_win_rate).
Local Abbreviation run := (games stars stops quals_stop quals_win_rate).

(** One game moves the total by at most one star. *)
Lemma game_body_step (game : Z) (cutoff : Q) (s : locals) :
  total_stars s - 1 <= total_stars (body game cutoff s).1 <= total_stars s + 1.
Proof.
  destruct (game_body_cases stars stops quals_stop quals_win_rate game cutoff s)
    as [[_ [[_ E] | [[_ [_ E]] | [_ [_ E]]]]] | [_ [[_ E] | [_ E]]]];
    rewrite E; simpl; lia.
Qed.

(** The [i]-th game of a run is the body run on the [i]-th next draw, with
    game index [game + i], from locals whose total is at most [i] above
    the initial one. *)
Lemma games_lookup (draws : nat -> Q) (n : nat) (game : Z) (pos : nat)
  (s : locals) (i : nat) (e : game_log) :
  run draws n game pos s !! i = Some e ->
  (i < n)%nat /\
  g_cutoff e = draws (pos + i)%nat /\
  (g_after e, g_return e) = body (game + Z.of_nat i) (g_cutoff e) (g_before e) /\
  total_stars (g_before e) <= total_stars s + Z.of_nat i.
Proof.
  revert game pos s i. induction n as [|n IH]; intros game pos s i;
    [intros H; inversion H|].
  rewrite games_S. destruct i as [|i]; simpl.
  - intros H. injection H as <-. simpl.
    rewrite Nat.add_0_r, Z.add_0_r.
    repeat split; try lia. now destruct (body game (draws pos) s).
  - destruct (body game (draws pos) s).2 eqn:E; [intros H; inversion H|].
    intros H. apply IH in H as (Hi & Hc & Hb & Ht).
    pose proof (game_body_step game (draws pos) s) as Hstep.
    replace (pos + S i)%nat with (S pos + i)%nat by lia.
    replace (game + Z.of_nat (S i)) with (game + 1 + Z.of_nat i) by lia.
    repeat split; auto; lia.
Qed.

(** The first game starts from the initial locals; every later game
    starts from the locals the game before it left, and that game did
    not return. *)
Lemma games_chain (draws : nat -> Q) (n : nat) (game : Z) (pos : nat)
  (s : locals) :
  (forall e, run draws n game pos s !! 0%nat = Some e -> g_before e = s) /\
  (forall i e e', run draws n game pos s !! i = Some e ->
                  run draws n game pos s !! S i = Some e' ->
                  g_before e' = g_after e /\ g_return e = None).
Proof.
  revert game pos s. induction n as [|n IH]; intros game pos s;
    [split; intros; discriminate|].
  rewrite games_S. split.
  - simpl. intros e H. now injection H as <-.
  - intros i e e' Hi Hi'. simpl in Hi'.
    destruct (body game (draws pos) s).2 eqn:E; [discriminate|].
    destruct (IH (game + 1) (S pos) (body game (draws pos) s).1) as [H0 HS].
    destruct i as [|i]; simpl in Hi.
    + injection Hi as <-. simpl. split; [now apply H0 | reflexivity].
    + now apply (HS i).
Qed.

(** A run either uses all its games and returns 0, or ends in a game
    that returns its own 1-based number, started one star short of
    [stars]. *)
Lemma games_result (draws : nat -> Q) (n : nat) (game : Z) (pos : nat)
  (s : locals) :
  let g := run draws n game pos s in
  (result_of g = 0 /\ length g = n) \/
  (exists e, last g = Some e /\
             g_return e = Some (result_of g) /\
             result_of g = game + Z.of_nat (length g) /\
             total_stars (g_before e) + 1 = stars).
Proof.
  cbv zeta. revert game pos s. induction n as [|n IH]; intros game pos s;
    [left; split; reflexivity|].
  rewrite games_S.
  set (b := body game (draws pos) s).
  destruct b.2 as [v|] eqn:E.
  - right. exists (Game s (draws pos) b.1 (Some v)).
    apply game_body_return in E as (_ & _ & Hst & ->).
    repeat split; simpl; auto; lia.
  - rewrite result_of_cons_no_return.
    destruct (IH (game + 1) (S pos) b.1) as [[H0 Hlen] | (e & Hl & Hr & Hv & Ht)].
    + left. simpl. split; [exact H0 | now rewrite Hlen].
    + right. exists e. rewrite last_cons, Hl. simpl length.
      repeat split; auto; lia.
Qed.

(** With more games to play, a run that returned returns the same. *)
Lemma games_extend (draws : nat -> Q) (n m : nat) (game : Z) (pos : nat)
  (s : locals) :
  (n <= m)%nat ->
  result_of (run draws n game pos s) <> 0 ->
  run draws m game pos s = run draws n game pos s.
Proof.
  revert m game pos s. induction n as [|n IH]; intros m game pos s Hnm;
    [intros H; exfalso; apply H; reflexivity|].
  destruct m as [|m]; [lia|]. rewrite !games_S.
  destruct (body game (draws pos) s).2; [reflexivity|].
  rewrite result_of_cons_no_return. intros Hv. f_equal. apply IH; [lia|exact Hv].
Qed.

(** A player who beats every draw gains one star per game and returns
    after as many games as stars were missing. *)
Lemma games_all_won (draws : nat -> Q) (n : nat) (game : Z) (pos : nat)
  (s : locals) :
  (forall i, (draws i < win_rate s)%Q) ->
  (forall i, (draws i < quals_win_rate)%Q) ->
  quals_stop <> stars ->
  total_stars s < stars ->
  stars - total_stars s <= Z.of_nat n ->
  let g := run draws n game pos s in
  result_of g = game + (stars - total_stars s) /\
  Z.of_nat (length g) = stars - total_stars s.
Proof.
  cbv zeta. intros Hw Hq Hne. revert game pos s Hw.
  induction n as [|n IH]; intros game pos s Hw Hlt Hn; [lia|].
  rewrite games_S.
  destruct (game_body_cases stars stops quals_stop quals_win_rate game
              (draws pos) s)
    as [[_ [[Ht E] | [[_ [Ht E]] | [Hnq [Hns E]]]]] | [Hl _]].
  - rewrite E. simpl fst. simpl snd. rewrite result_of_cons_no_return.
    destruct (IH (game + 1) (S pos) (Locals (total_stars s + 1) quals_win_rate))
      as [Hr Hlen]; simpl; auto; try lia.
    simpl in Hr, Hlen. simpl length. split; lia.
  - rewrite E. simpl. unfold result_of. simpl. split; lia.
  - rewrite E. simpl fst. simpl snd. rewrite result_of_cons_no_return.
    destruct (IH (game + 1) (S pos) (Locals (total_stars s + 1) (win_rate s)))
      as [Hr Hlen]; simpl; auto; try lia.
    simpl in Hr, Hlen. simpl length. split; lia.
  - exfalso. eapply Qlt_not_le; [apply (Hw pos) | exact Hl].
Qed.

(** Until the rate is switched a game is played at the initial rate;
    after the switch at [quals_win_rate]. *)
Lemma games_rate (draws : nat -> Q) (n : nat) (game : Z) (pos : nat)
  (s : locals) (i : nat) (e : game_log) :
  run draws n game pos s !! i = Some e ->
  let k := quals_entries quals_stop (take i (run draws n game pos s)) in
  (k = 0%nat -> win_rate (g_before e) = win_rate s) /\
  ((0 < k)%nat -> win_rate (g_before e) = quals_win_rate).
Proof.
  cbv zeta. revert game pos s i. induction n as [|n IH]; intros game pos s i;
    [intros H; inversion H|].
  rewrite games_S. destruct i as [|i]; simpl.
  - intros H. injection H as <-. simpl. unfold quals_entries. simpl.
    split; [reflexivity | lia].
  - destruct (body game (draws pos) s).2 eqn:E; [intros H; inversion H|].
    intros H. apply IH in H as [H0 H1].
    unfold quals_entries in *. simpl.
    destruct (enters_quals quals_stop (draws pos) s) eqn:En; simpl.
    + apply enters_quals_spec in En as [Hw Ht].
      assert (Hb : body game (draws pos) s =
                   (Locals (total_stars s + 1) quals_win_rate, None)).
      { destruct (game_body_cases stars stops quals_stop quals_win_rate game
                    (draws pos) s)
          as [[_ [[_ B] | [[? _] | [? _]]]] | [Hl _]];
          [exact B | contradiction | contradiction | won_and_lost]. }
      rewrite Hb in H0, H1. simpl in H0, H1.
      split; [lia|]. intros _.
      destruct (length (List.filter
                  (fun e0 => enters_quals quals_stop (g_cutoff e0) (g_before e0))
                  (take i (run draws n (game + 1) (S pos)
                             (Locals (total_stars s + 1) quals_win_rate)))))
        eqn:Ek; [apply H0; reflexivity | apply H1; lia].
    + assert (Hr : win_rate (body game (draws pos) s).1 = win_rate s).
      { destruct (game_body_cases stars stops quals_stop quals_win_rate game
                    (draws pos) s)
          as [[Hw [[Ht B] | [[_ [_ B]] | [_ [_ B]]]]] | [_ [[_ B] | [_ B]]]];
          try (rewrite B; reflexivity).
        exfalso. assert (enters_quals quals_stop (draws pos) s = true);
          [apply enters_quals_spec; auto | congruence]. }
      rewrite Hr in H0. split; auto.
Qed.

(** At or above the highest stop the quals win rate is never read. *)
Lemma games_quals_rate_unused (qw' : Q) (draws : nat -> Q) (n : nat)
  (game : Z) (pos : nat) (s : locals) :
  quals_stop ∈ stops -> quals_stop <= total_stars s ->
  run draws n game pos s = games stars stops quals_stop qw' draws n game pos s.
Proof.
  intros Hq. revert game pos s. induction n as [|n IH]; intros game pos s Hs;
    [reflexivity|].
  rewrite !games_S.
  assert (Hb : body game (draws pos) s =
               game_body stars stops quals_stop qw' game (draws pos) s).
  { unfold game_body. destruct (Z.eqb_spec (total_stars s + 1) quals_stop);
      [lia | reflexivity]. }
  rewrite <- Hb. destruct (body game (draws pos) s).2; [reflexivity|].
  f_equal. apply IH. now apply game_body_floor.
Qed.

End GamesByIndex.

(** ** More on sim_league *)

Lemma sim_league_games_unfold (stars : Z) (l : loc) (wr : Q) (qwr : option Q)
  (gp : Z) (w : world) (xs : list Z) (q : Z) :
  heap w !! l = Some xs ->
  quals_stop_of xs = Some q ->
  sim_league_games stars l wr qwr gp w =
  games stars (list_to_set (xs ++ [0])) q (quals_rate_used wr qwr)
        (rng_draws w) (Z.to_nat gp) 0 (rng_pos w) (Locals 0 wr).
Proof. intros Hl Hq. unfold sim_league_games. now rewrite Hl, Hq. Qed.

(** The totals of a loop move by at most one star from game to game. *)
Lemma games_totals_step (stars : Z) (stops : gset Z) (q : Z) (qw : Q)
  (draws : nat -> Q) (n : nat) (game : Z) (pos : nat) (s : locals)
  (i : nat) (a b : Z) :
  let totals := total_stars s ::
                map (fun e => total_stars (g_after e))
                    (games stars stops q qw draws n game pos s) in
  totals !! i = Some a -> totals !! S i = Some b -> a - 1 <= b <= a + 1.
Proof.
  cbv zeta. simpl. intros Ha Hb.
  apply list_lookup_fmap_Some in Hb as (e' & -> & He').
  destruct (games_lookup _ _ _ _ _ _ _ _ _ _ _ He') as (_ & _ & Hbody & _).
  assert (Hafter : g_after e' =
                   (game_body stars stops q qw (game + Z.of_nat i)
                      (g_cutoff e') (g_before e')).1) by now rewrite <- Hbody.
  pose proof (game_body_step stars stops q qw (game + Z.of_nat i)
                (g_cutoff e') (g_before e')) as Hstep.
  rewrite <- Hafter in Hstep.
  destruct (games_chain stars stops q qw draws n game pos s) as [H0 HS].
  destruct i as [|i]; simpl in Ha.
  - injection Ha as <-. rewrite (H0 e' He') in Hstep. exact Hstep.
  - apply list_lookup_fmap_Some in Ha as (e & -> & He).
    destruct (HS i e e' He He') as [Hbe _]. rewrite Hbe in Hstep. exact Hstep.
Qed.

(** How a call ends: with a game number that is also the number of draws
    used, reached from one star short of [stars] after at least [stars]
    games; or with 0 after the whole budget. *)
Lemma sim_league_end (stars : Z) (l : loc) (wr : Q) (qwr : option Q)
  (gp : Z) (w : world) (xs : list Z) :
  heap w !! l = Some xs ->
  let g := sim_league_games stars l wr qwr gp w in
  (result_of g = 0 /\ length g = Z.to_nat gp) \/
  (result_of g = Z.of_nat (length g) /\ (1 <= length g)%nat /\
   stars <= Z.of_nat (length g)).
Proof.
  intros Hl. cbv zeta.
  destruct (quals_stop_of_spec xs) as (q & Hq & _).
  rewrite (sim_league_games_unfold _ _ _ _ _ _ _ _ Hl Hq).
  set (g := games _ _ _ _ _ _ _ _ _).
  destruct (games_result stars (list_to_set (xs ++ [0])) q
              (quals_rate_used wr qwr) (rng_draws w) (Z.to_nat gp) 0
              (rng_pos w) (Locals 0 wr))
    as [H | (e & Hlast & _ & Hv & Ht)]; [left; exact H | right].
  fold g in Hlast, Hv.
  rewrite last_lookup in Hlast.
  destruct (games_lookup _ _ _ _ _ _ _ _ _ _ _ Hlast) as (_ & _ & _ & Hle).
  simpl in Hle.
  assert (length g <> 0)%nat by (intros Hz; rewrite Hz in Hlast;
                                 destruct g; simpl in *; congruence).
  repeat split; lia.
Qed.

(** X1: a call that reports a qualification reports a game number that
    is at least [stars] and has used exactly that many draws; a call that
    returns 0 has used its whole budget of draws. *)
Theorem qualification_takes_stars_games (stars : Z) (l : loc) (wr : Q)
  (qwr : option Q) (gp : Z) (w w' : world) (xs : list Z) (v : Z) :
  heap w !! l = Some xs ->
  sim_league stars l wr qwr gp w = Ok v w' ->
  (v <> 0 -> stars <= v /\ rng_pos w' = (Z.to_nat v + rng_pos w)%nat) /\
  (v = 0 -> rng_pos w' = (Z.to_nat gp + rng_pos w)%nat).
Proof.
  intros Hl. rewrite (sim_league_run _ _ _ _ _ _ _ Hl).
  intros H. injection H as <- <-. simpl.
  destruct (sim_league_end stars l wr qwr gp w xs Hl)
    as [[H0 Hlen] | (Hv & H1 & Hst)].
  - split; [congruence | now rewrite Hlen].
  - rewrite Hv. split; [|lia]. intros _. split; [exact Hst | f_equal; lia].
Qed.

Lemma qualification_takes_stars_games_witness :
  exists w', sim_league 3 0%nat (1 # 4) None 10 two_stops_world = Ok 5 w' /\
             3 <= 5 /\ rng_pos w' = 5%nat.
Proof.
  assert (H : exists w', sim_league 3 0%nat (1 # 4) None 10 two_stops_world
                         = Ok 5 w') by (eexists; vm_compute; reflexivity).
  destruct H as [w' H]. exists w'. split; [exact H|].
  assert (Hl : heap two_stops_world !! 0%nat = Some [1; 2])
    by (vm_compute; reflexivity).
  destruct (qualification_takes_stars_games 3 0%nat (1 # 4)%Q None 10
              two_stops_world w' [1; 2] 5 Hl H) as [Hq _].
  apply Hq. lia.
Defined.

(** X2: a player who beats every draw, at the normal rate and at the
    quals rate in use, qualifies in exactly [stars] games, provided the
    budget allows [stars] games and the highest stop is not [stars]. *)
Theorem always_winning_qualifies_in_stars_games (stars : Z) (l : loc) (wr : Q)
  (qwr : option Q) (gp : Z) (w : world) (xs : list Z) (q : Z) :
  heap w !! l = Some xs ->
  quals_stop_of xs = Some q ->
  q <> stars ->
  0 < stars <= gp ->
  (forall i, (rng_draws w i < wr)%Q) ->
  (forall i, (rng_draws w i < quals_rate_used wr qwr)%Q) ->
  exists w', sim_league stars l wr qwr gp w = Ok stars w' /\
             rng_pos w' = (Z.to_nat stars + rng_pos w)%nat.
Proof.
  intros Hl Hq Hne Hst Hw Hqw. rewrite (sim_league_run _ _ _ _ _ _ _ Hl).
  rewrite (sim_league_games_unfold _ _ _ _ _ _ _ _ Hl Hq).
  destruct (games_all_won stars (list_to_set (xs ++ [0])) q
              (quals_rate_used wr qwr) (rng_draws w) (Z.to_nat gp) 0
              (rng_pos w) (Locals 0 wr)) as [Hr Hlen]; simpl; auto; try lia.
  simpl in Hr, Hlen. eexists. split.
  - f_equal. lia.
  - simpl. f_equal. lia.
Qed.

Lemma always_winning_qualifies_in_stars_games_witness :
  exists w', sim_league 19 0%nat 1 None 200 bronze_world = Ok 19 w' /\
             rng_pos w' = (Z.to_nat 19 + rng_pos bronze_world)%nat.
Proof.
  apply (always_winning_qualifies_in_stars_games 19 0%nat 1%Q None 200
           bronze_world [1; 2; 6; 14] 14).
  - vm_compute; reflexivity.
  - vm_compute; reflexivity.
  - lia.
  - lia.
  - intros i. simpl. unfold Qlt. simpl. lia.
  - intros i. simpl. unfold Qlt. simpl. lia.
Defined.

(** X3: from game to game the star total moves by at most one, and
    after [i] games it is at most [i]. The games are those of the call
    ([sim_league_run]). *)
Theorem star_totals_move_by_one (stars : Z) (l : loc) (wr : Q)
  (qwr : option Q) (gp : Z) (w : world) :
  let totals := star_totals (sim_league_games stars l wr qwr gp w) in
  (forall i a b, totals !! i = Some a -> totals !! S i = Some b ->
                 a - 1 <= b <= a + 1) /\
  (forall i t, totals !! i = Some t -> t <= Z.of_nat i).
Proof.
  cbv zeta.
  assert (Hstep : forall i a b,
            star_totals (sim_league_games stars l wr qwr gp w) !! i = Some a ->
            star_totals (sim_league_games stars l wr qwr gp w) !! S i = Some b ->
            a - 1 <= b <= a + 1).
  { unfold sim_league_games, star_totals.
    destruct (heap w !! l) as [xs|];
      [|intros i a b _ H; simpl in H; discriminate].
    destruct (quals_stop_of xs) as [q|];
      [|intros i a b _ H; simpl in H; discriminate].
    intros i a b.
    apply (games_totals_step stars (list_to_set (xs ++ [0])) q _ (rng_draws w)
             (Z.to_nat gp) 0 (rng_pos w) (Locals 0 wr) i a b). }
  split; [exact Hstep|].
  induction i as [|i IH]; intros t Ht.
  - unfold star_totals in Ht. simpl in Ht. injection Ht as <-. lia.
  - destruct (star_totals (sim_league_games stars l wr qwr gp w) !! i)
      as [a|] eqn:Ha.
    + specialize (IH a eq_refl). specialize (Hstep i a t Ha Ht). lia.
    + apply lookup_ge_None in Ha. apply lookup_lt_Some in Ht. lia.
Qed.

Lemma star_totals_move_by_one_witness :
  let totals := star_totals (sim_league_games 3 0%nat (1 # 4) None 10
                               two_stops_world) in
  totals = [0; 1; 1; 2; 2; 3] /\
  (forall i a b, totals !! i = Some a -> totals !! S i = Some b ->
                 a - 1 <= b <= a + 1) /\
  (forall i t, totals !! i = Some t -> t <= Z.of_nat i).
Proof.
  split; [vm_compute; reflexivity|].
  apply (star_totals_move_by_one 3 0%nat (1 # 4)%Q None 10 two_stops_world).
Defined.

(** X4: every game before the one that reaches the highest stop by a
    win is played at [win_rate], that game included; every later game is
    played at the quals rate in use. The games are those of the call
    ([sim_league_run]). *)
Theorem rate_of_each_game (stars : Z) (l : loc) (wr : Q) (qwr : option Q)
  (gp : Z) (w : world) (xs : list Z) (q : Z) (i : nat) (e : game_log) :
  heap w !! l = Some xs ->
  quals_stop_of xs = Some q ->
  let g := sim_league_games stars l wr qwr gp w in
  g !! i = Some e ->
  (quals_entries q (take i g) = 0%nat -> win_rate (g_before e) = wr) /\
  ((0 < quals_entries q (take i g))%nat ->
   win_rate (g_before e) = quals_rate_used wr qwr).
Proof.
  intros Hl Hq. cbv zeta.
  rewrite (sim_league_games_unfold _ _ _ _ _ _ _ _ Hl Hq). intros He.
  apply (games_rate stars (list_to_set (xs ++ [0])) q (quals_rate_used wr qwr)
           (rng_draws w) (Z.to_nat gp) 0 (rng_pos w) (Locals 0 wr) i e He).
Qed.

Lemma rate_of_each_game_witness :
  let g := sim_league_games 19 0%nat (1 # 2) (Some (1 # 3)%Q) 200
             bronze_world in
  exists e, g !! 14%nat = Some e /\
            quals_entries 14 (take 14 g) = 1%nat /\
            win_rate (g_before e) = (1 # 3)%Q.
Proof.
  cbv zeta.
  assert (H : exists e, sim_league_games 19 0%nat (1 # 2) (Some (1 # 3)%Q) 200
                          bronze_world !! 14%nat = Some e)
    by (eexists; vm_compute; reflexivity).
  destruct H as [e He]. exists e. split; [exact He|].
  assert (Hk : quals_entries 14
                 (take 14 (sim_league_games 19 0%nat (1 # 2) (Some (1 # 3)%Q)
                             200 bronze_world)) = 1%nat)
    by (vm_compute; reflexivity).
  split; [exact Hk|].
  assert (Hl : heap bronze_world !! 0%nat = Some [1; 2; 6; 14])
    by (vm_compute; reflexivity).
  assert (Hq : quals_stop_of [1; 2; 6; 14] = Some 14)
    by (vm_compute; reflexivity).
  destruct (rate_of_each_game 19 0%nat (1 # 2)%Q (Some (1 # 3)%Q) 200
              bronze_world [1; 2; 6; 14] 14 14 e Hl Hq He) as [_ H1].
  rewrite H1; [reflexivity | rewrite Hk; lia].
Defined.

(** A list without a positive stop has 0 as its highest stop. *)
Lemma quals_stop_of_no_stops (xs : list Z) :
  Forall (fun x => x <= 0) xs -> quals_stop_of xs = Some 0.
Proof.
  intros Hxs. destruct (quals_stop_of_spec xs) as (q & Hq & Hin & _ & Hq0).
  rewrite Hq. f_equal.
  apply elem_of_list_to_set, elem_of_app in Hin as [Hin | Hin].
  - rewrite Forall_forall in Hxs. specialize (Hxs q Hin). lia.
  - apply list_elem_of_singleton in Hin. exact Hin.
Qed.

(** X5: with no positive stop (no [--stop], or [--stop=0] as for the
    Gold League) the quals win rate is never used: the call behaves as
    if none had been given. *)
Theorem no_stops_no_quals_rate (stars : Z) (l : loc) (wr : Q)
  (qwr : option Q) (gp : Z) (w : world) (xs : list Z) :
  heap w !! l = Some xs ->
  Forall (fun x => x <= 0) xs ->
  sim_league stars l wr qwr gp w = sim_league stars l wr None gp w.
Proof.
  intros Hl Hxs. rewrite !(sim_league_run _ _ _ _ _ _ _ Hl).
  pose proof (quals_stop_of_no_stops xs Hxs) as Hq.
  rewrite !(sim_league_games_unfold _ _ _ _ _ _ _ _ Hl Hq).
  rewrite (games_quals_rate_unused stars (list_to_set (xs ++ [0])) 0
             (quals_rate_used wr qwr) (quals_rate_used wr None));
    [reflexivity | set_solver | simpl; lia].
Qed.

Lemma no_stops_no_quals_rate_witness :
  sim_league 3 0%nat (1 # 2) (Some (1 # 8)%Q) 10
    (World {[ 0%nat := [0] ]} (fun _ => 1 # 4)%Q 0) =
  sim_league 3 0%nat (1 # 2) None 10
    (World {[ 0%nat := [0] ]} (fun _ => 1 # 4)%Q 0).
Proof.
  apply (no_stops_no_quals_rate 3 0%nat (1 # 2)%Q (Some (1 # 8)%Q) 10
           (World {[ 0%nat := [0] ]} (fun _ => 1 # 4)%Q 0) [0]).
  - vm_compute; reflexivity.
  - repeat constructor; lia.
Defined.

(** Lists with the same non-zero items give the same set of stops. *)
Lemma stops_set_eq (xs ys : list Z) :
  (forall x, x <> 0 -> (x ∈ xs <-> x ∈ ys)) ->
  (list_to_set (xs ++ [0]) : gset Z) = list_to_set (ys ++ [0]).
Proof.
  intros H. apply set_eq. intros x.
  rewrite !elem_of_list_to_set, !elem_of_app, !list_elem_of_singleton.
  destruct (decide (x = 0)) as [-> | Hx]; [tauto|].
  specialize (H x Hx). tauto.
Qed.

(** X6: the result of a call depends on the stops only through the set
    of their non-zero values: order, repetitions and zeros (those
    appended by earlier calls among them) change neither the result nor
    the number of draws used. *)
Theorem result_depends_on_set_of_stops (stars : Z) (l1 l2 : loc) (wr : Q)
  (qwr : option Q) (gp : Z) (w1 w2 : world) (xs ys : list Z) :
  heap w1 !! l1 = Some xs ->
  heap w2 !! l2 = Some ys ->
  (forall x, x <> 0 -> (x ∈ xs <-> x ∈ ys)) ->
  rng_draws w1 = rng_draws w2 ->
  rng_pos w1 = rng_pos w2 ->
  exists v w1' w2',
    sim_league stars l1 wr qwr gp w1 = Ok v w1' /\
    sim_league stars l2 wr qwr gp w2 = Ok v w2' /\
    rng_pos w1' = rng_pos w2'.
Proof.
  intros H1 H2 Hset Hd Hp.
  rewrite (sim_league_run _ _ _ _ _ _ _ H1), (sim_league_run _ _ _ _ _ _ _ H2).
  assert (Hg : sim_league_games stars l1 wr qwr gp w1 =
               sim_league_games stars l2 wr qwr gp w2).
  { unfold sim_league_games, quals_stop_of. rewrite H1, H2.
    rewrite (stops_set_eq xs ys Hset), Hd, Hp. reflexivity. }
  rewrite Hg. eexists _, _, _. repeat split. simpl. now rewrite Hp.
Qed.

Lemma result_depends_on_set_of_stops_witness :
  exists v w1' w2',
    sim_league 19 0%nat (1 # 2) None 200 bronze_world = Ok v w1' /\
    sim_league 19 0%nat (1 # 2) None 200
      (World {[ 0%nat := [14; 6; 0; 2; 1; 1; 0] ]} (fun _ => 1 # 4)%Q 0)
    = Ok v w2' /\
    rng_pos w1' = rng_pos w2'.
Proof.
  apply (result_depends_on_set_of_stops 19 0%nat 0%nat (1 # 2)%Q None 200
           bronze_world
           (World {[ 0%nat := [14; 6; 0; 2; 1; 1; 0] ]} (fun _ => 1 # 4)%Q 0)
           [1; 2; 6; 14] [14; 6; 0; 2; 1; 1; 0]).
  - vm_compute; reflexivity.
  - vm_compute; reflexivity.
  - intros x Hx. rewrite !list_elem_of_In. simpl. lia.
  - reflexivity.
  - reflexivity.
Defined.

(** X7: a larger budget of games does not change a qualification: a
    call that returns a game number returns the same number, in the same
    final world, for every larger [games_played]. *)
Theorem larger_budget_keeps_result (stars : Z) (l : loc) (wr : Q)
  (qwr : option Q) (gp gp' : Z) (w w' : world) (xs : list Z) (v : Z) :
  heap w !! l = Some xs ->
  gp <= gp' ->
  sim_league stars l wr qwr gp w = Ok v w' ->
  v <> 0 ->
  sim_league stars l wr qwr gp' w = Ok v w'.
Proof.
  intros Hl Hgp. rewrite !(sim_league_run _ _ _ _ _ _ _ Hl).
  destruct (quals_stop_of_spec xs) as (q & Hq & _).
  rewrite !(sim_league_games_unfold _ _ _ _ _ _ _ _ Hl Hq).
  intros H Hv. injection H as Hr Hw. rewrite <- Hr in Hv.
  rewrite (games_extend stars (list_to_set (xs ++ [0])) q
             (quals_rate_used wr qwr) (rng_draws w) (Z.to_nat gp)
             (Z.to_nat gp')); [|lia | exact Hv].
  now rewrite Hr, Hw.
Qed.

Lemma larger_budget_keeps_result_witness :
  exists w', sim_league 3 0%nat (1 # 4) None 10 two_stops_world = Ok 5 w' /\
             sim_league 3 0%nat (1 # 4) None 1000 two_stops_world = Ok 5 w'.
Proof.
  assert (H : exists w', sim_league 3 0%nat (1 # 4) None 10 two_stops_world
                         = Ok 5 w') by (eexists; vm_compute; reflexivity).
  destruct H as [w' H]. exists w'. split; [exact H|].
  apply (larger_budget_keeps_result 3 0%nat (1 # 4)%Q None 10 1000
           two_stops_world w' [1; 2] 5).
  - vm_compute; reflexivity.
  - lia.
  - exact H.
  - lia.
Defined.

(** X8: a target of zero or fewer stars is never reached: the call
    returns 0 after using its whole budget of draws. *)
Theorem nonpositive_target_never_reached (stars : Z) (l : loc) (wr : Q)
  (qwr : option Q) (gp : Z) (w : world) (xs : list Z) :
  heap w !! l = Some xs ->
  stars <= 0 ->
  exists w', sim_league stars l wr qwr gp w = Ok 0 w' /\
             rng_pos w' = (Z.to_nat gp + rng_pos w)%nat.
Proof.
  intros Hl Hst. rewrite (sim_league_run _ _ _ _ _ _ _ Hl).
  destruct (quals_stop_of_spec xs) as (q & Hq & _).
  assert (H0 : result_of (sim_league_games stars l wr qwr gp w) = 0).
  { rewrite (sim_league_games_unfold _ _ _ _ _ _ _ _ Hl Hq).
    apply result_of_no_return. apply games_no_return_low_target; simpl;
      [set_solver | lia | lia]. }
  rewrite H0. eexists. split; [reflexivity|]. simpl.
  destruct (sim_league_end stars l wr qwr gp w xs Hl) as [[_ Hlen] | (Hv & H1 & _)];
    [now rewrite Hlen | lia].
Qed.

Lemma nonpositive_target_never_reached_witness :
  exists w', sim_league 0 0%nat 1 None 200 bronze_world = Ok 0 w' /\
             rng_pos w' = (Z.to_nat 200 + rng_pos bronze_world)%nat.
Proof.
  apply (nonpositive_target_never_reached 0 0%nat 1%Q None 200 bronze_world
           [1; 2; 6; 14]).
  - vm_compute; reflexivity.
  - lia.
Defined.

(** X9: a call changes no list object other than the one it was given,
    leaves the generator's sequence as it is, and draws at most
    [games_played] values from it. *)
Theorem sim_league_frame (stars : Z) (l : loc) (wr : Q) (qwr : option Q)
  (gp : Z) (w w' : world) (xs : list Z) (v : Z) :
  heap w !! l = Some xs ->
  sim_league stars l wr qwr gp w = Ok v w' ->
  (forall l', l' <> l -> heap w' !! l' = heap w !! l') /\
  rng_draws w' = rng_draws w /\
  (rng_pos w <= rng_pos w' <= rng_pos w + Z.to_nat gp)%nat.
Proof.
  intros Hl. rewrite (sim_league_run _ _ _ _ _ _ _ Hl).
  intros H. injection H as _ <-. simpl. split; [|split; [reflexivity|]].
  - intros l' Hne. now rewrite lookup_insert_ne.
  - destruct (sim_league_end stars l wr qwr gp w xs Hl)
      as [[_ Hlen] | (Hv & H1 & _)]; [lia|].
    destruct (sim_league_returns stars l wr qwr gp w xs Hl)
      as (v' & w'' & E & Hrange).
    rewrite (sim_league_run _ _ _ _ _ _ _ Hl) in E. injection E as E _.
    lia.
Qed.

Lemma sim_league_frame_witness :
  exists v w', sim_league 19 0%nat (1 # 2) None 200 two_lists_world = Ok v w' /\
               heap w' !! 1%nat = Some [3; 5] /\
               (rng_pos w' <= 200)%nat.
Proof.
  assert (H : exists w', sim_league 19 0%nat (1 # 2) None 200 two_lists_world
                         = Ok 19 w') by (eexists; vm_compute; reflexivity).
  destruct H as [w' H]. exists 19, w'. split; [exact H|].
  assert (Hl : heap two_lists_world !! 0%nat = Some [1; 2; 6; 14])
    by (vm_compute; reflexivity).
  destruct (sim_league_frame 19 0%nat (1 # 2)%Q None 200 two_lists_world w'
              [1; 2; 6; 14] 19 Hl H) as (Hh & _ & Hp).
  split.
  - rewrite Hh by lia. vm_compute; reflexivity.
  - simpl in Hp. lia.
Defined.

(** ** The checks of the script *)

Lemma fold_left_min_spec (xs : list Z) (a : Z) :
  fold_left Z.min xs a <= a /\
  Forall (fun x => fold_left Z.min xs a <= x) xs /\
  (fold_left Z.min xs a = a \/ In (fold_left Z.min xs a) xs).
Proof.
  revert a. induction xs as [|x xs IH]; intros a; simpl.
  - repeat split; [lia | constructor | now left].
  - destruct (IH (Z.min a x)) as (H1 & H2 & H3). repeat split; [lia | |].
    + constructor; [lia | exact H2].
    + destruct H3 as [H3 | H3]; [|now right; right].
      rewrite H3. destruct (Z.min_spec a x) as [[_ ->] | [_ ->]]; auto.
Qed.

(** [min(stops) < 0] finds a negative stop exactly when there is one. *)
Lemma py_min_list_negative (x : Z) (xs : list Z) :
  exists m, py_min_list (x :: xs) = Some m /\
            ((m <? 0) = false <-> Forall (fun y => 0 <= y) (x :: xs)).
Proof.
  exists (fold_left Z.min xs x). split; [reflexivity|].
  destruct (fold_left_min_spec xs x) as (H1 & H2 & H3).
  rewrite Z.ltb_ge. split.
  - intros Hm. constructor; [lia|].
    eapply Forall_impl; [exact H2|]. simpl. intros; lia.
  - intros Hall. inversion Hall as [|? ? Hx Hxs]; subst.
    destruct H3 as [-> | Hin]; [exact Hx|].
    rewrite Forall_forall in Hxs. apply Hxs. now apply list_elem_of_In.
Qed.

(** The checks that follow the stops: the two rates, the games, the
    runs. *)
Ltac remaining_checks wr qwr gp rn :=
  let Ea := fresh "Ea" in
  let Eb := fresh "Eb" in
  destruct (Qgtb 0 wr) eqn:Ea; simpl;
  [apply Qgtb_true in Ea; right;
   split; [intros (_ & _ & ? & _); won_and_lost | eexists _, _; reflexivity]|];
  destruct (Qgtb wr 1) eqn:Eb; simpl;
  [apply Qgtb_true in Eb; right;
   split; [intros (_ & _ & _ & ? & _); won_and_lost
          | eexists _, _; reflexivity]|];
  apply Qgtb_false in Ea; apply Qgtb_false in Eb;
  destruct (Z.gtb_spec gp 0); simpl;
  [|right; split; [lia | destruct qwr; eexists _, _; reflexivity]];
  destruct (Z.gtb_spec rn 0); simpl;
  [|right; split; [lia | destruct qwr; eexists _, _; reflexivity]];
  left; split; [repeat split; auto | destruct qwr; reflexivity].

(** The checks pass exactly on the inputs described, and then hand on
    the options as they are; otherwise a [ValueError] is raised. *)
Lemma check_inputs_cases (D : loc) (o : Script.options) (w : world) :
  let ok := 0 < Script.opt_stars o /\
            Forall (fun x => 0 <= x) (Script.opt_stop o) /\
            (0 <= Script.opt_win_rate o)%Q /\
            (Script.opt_win_rate o <= 1)%Q /\
            0 < Script.opt_games_played o /\
            0 < Script.opt_runs o in
  (ok /\
   Script.check_inputs D o w =
   Ok (Script.Globals (Script.opt_stars o)
         (match Script.opt_stop o with
          | [] => D
          | _ => fresh (dom (heap w))
          end)
         (Script.opt_win_rate o)
         (default (Script.opt_win_rate o) (Script.opt_quals_win_rate o))
         (Script.opt_games_played o) (Script.opt_runs o))
      (match Script.opt_stop o with
       | [] => w
       | xs => set_heap (<[fresh (dom (heap w)) := xs]> (heap w)) w
       end)) \/
  (~ ok /\ exists msg w', Script.check_inputs D o w = Raise (ValueError msg) w').
Proof.
  cbv zeta. destruct o as [st sp wr qwr gp rn]. simpl.
  unfold Script.check_inputs. simpl.
  destruct (Z.gtb_spec st 0) as [Hst | Hst]; simpl;
    [|right; split; [lia | eexists _, _; reflexivity]].
  unfold mbind, M_bind, mret, M_ret, raise.
  destruct sp as [|x xs]; simpl.
  - assert (Hall : Forall (fun y => 0 <= y) (@nil Z)) by constructor.
    remaining_checks wr qwr gp rn.
  - unfold new_list, py_min. simpl. rewrite lookup_insert_eq.
    destruct (py_min_list_negative x xs) as (m & Hm & Hneg). rewrite Hm.
    destruct (m <? 0) eqn:Em.
    + right. split; [|eexists _, _; reflexivity].
      intros (_ & Hall & _). apply Hneg in Hall. congruence.
    + assert (Hall : Forall (fun y => 0 <= y) (x :: xs)) by now apply Hneg.
      remaining_checks wr qwr gp rn.
Qed.



(** X12: without [--stop] the runs are given [DEFAULT_STOPS] itself and
    the checks change nothing; with [--stop] they are given a new list
    object holding the stops supplied, none of them negative, and every
    list object that existed before is as it was. *)
Theorem check_inputs_stops (D : loc) (o : Script.options) (w w' : world)
  (g : Script.globals) (ds : list Z) :
  heap w !! D = Some ds ->
  Script.check_inputs D o w = Ok g w' ->
  (Script.opt_stop o = [] -> Script.stops g = D /\ w' = w) /\
  (Script.opt_stop o <> [] ->
   Script.stops g <> D /\
   heap w !! Script.stops g = None /\
   heap w' !! Script.stops g = Some (Script.opt_stop o) /\
   Forall (fun x => 0 <= x) (Script.opt_stop o) /\
   forall l, l <> Script.stops g -> heap w' !! l = heap w !! l).
Proof.
  intros HD H.
  destruct (check_inputs_cases D o w)
    as [[(_ & Hall & _) E] | [_ (msg & w1 & E)]];
    rewrite E in H; [|discriminate].
  injection H as <- <-. simpl.
  assert (Hfresh : heap w !! fresh (dom (heap w)) = None).
  { apply not_elem_of_dom. apply is_fresh. }
  destruct (Script.opt_stop o) as [|x xs]; split; try congruence.
  - intros _. split; reflexivity.
  - intros _. simpl. repeat split.
    + intros Heq. rewrite Heq in Hfresh. congruence.
    + exact Hfresh.
    + apply lookup_insert_eq.
    + exact Hall.
    + intros l Hl. now rewrite lookup_insert_ne.
Qed.

Lemma check_inputs_stops_witness :
  exists g w', Script.check_inputs 0%nat
                 (Script.Options 19 [3; 5] (1 # 2) None 200 1000)
                 bronze_world = Ok g w' /\
               Script.stops g <> 0%nat /\
               heap w' !! Script.stops g = Some [3; 5] /\
               heap w' !! 0%nat = Some [1; 2; 6; 14].
Proof.
  assert (H : exists g w', Script.check_inputs 0%nat
                (Script.Options 19 [3; 5] (1 # 2) None 200 1000)
                bronze_world = Ok g w')
    by (eexists _, _; vm_compute; reflexivity).
  destruct H as (g & w' & H). exists g, w'. split; [exact H|].
  assert (HD : heap bronze_world !! 0%nat = Some [1; 2; 6; 14])
    by (vm_compute; reflexivity).
  destruct (check_inputs_stops 0%nat
              (Script.Options 19 [3; 5] (1 # 2) None 200 1000)
              bronze_world w' g [1; 2; 6; 14] HD H) as [_ Hs].
  destruct Hs as (Hne & _ & Hl & _ & Hframe); [simpl; congruence|].
  split; [exact Hne|]. split; [exact Hl|].
  rewrite Hframe by (intros Heq; apply Hne; now rewrite Heq). exact HD.
Defined.

(** ** The runs of the script *)


(** [n] runs on a list object give [n] results, each 0 or a game number,
    leave [n] more zeros in the list object, and touch nothing else but
    the position of the generator. *)
Lemma run_simulations_spec (n : nat) (g : Script.globals) (w : world)
  (xs : list Z) :
  heap w !! Script.stops g = Some xs ->
  exists rs w',
    Script.run_simulations n g w = Ok rs w' /\
    length rs = n /\
    Forall (fun r => r = 0 \/ 1 <= r <= Script.games_played g) rs /\
    heap w' = <[Script.stops g := xs ++ replicate n 0]> (heap w) /\
    rng_draws w' = rng_draws w.
Proof.
  revert w xs. induction n as [|n IH]; intros w xs Hl.
  - exists [], w. simpl. repeat split; [constructor|].
    rewrite app_nil_r. symmetry. now apply insert_id.
  - simpl. unfold mbind, M_bind.
    destruct (sim_league_returns (Script.stars g) (Script.stops g)
                (Script.win_rate g) (Some (Script.quals_win_rate g))
                (Script.games_played g) w xs Hl) as (v & w1 & E & Hv).
    rewrite E.
    rewrite (sim_league_run _ _ _ _ _ _ _ Hl) in E. injection E as _ Hw1.
    assert (Hl1 : heap w1 !! Script.stops g = Some (xs ++ [0])).
    { rewrite <- Hw1. simpl. apply lookup_insert_eq. }
    destruct (IH w1 (xs ++ [0]) Hl1) as (rs & w' & E' & Hlen & Hall & Hh & Hd).
    rewrite E'. exists (v :: rs), w'. unfold mret, M_ret.
    repeat split.
    + simpl. now rewrite Hlen.
    + constructor; assumption.
    + rewrite Hh, <- Hw1. simpl. rewrite insert_insert_eq.
      now rewrite <- app_assoc.
    + rewrite Hd, <- Hw1. reflexivity.
Qed.



Lemma num_quals_range (rs : list Z) :
  0 <= Script.num_quals rs <= Z.of_nat (length rs).
Proof.
  unfold Script.num_quals.
  pose proof (filter_length_mono (fun r => r >? 0) (fun _ => true) rs) as H.
  rewrite (List.forallb_filter_id (fun _ => true) rs) in H
    by (apply forallb_forall; reflexivity).
  assert (length (List.filter (fun r => r >? 0) rs) <= length rs)%nat
    by (apply H; apply Forall_forall; intros; reflexivity).
  lia.
Qed.


(** ** The script as a whole *)












(** X16: the runs give one result each, none of them negative, so that
    the qualifications counted by [results > 0] are the non-zero results,
    and their number is between 0 and the number of runs. *)
Theorem qualifications_are_the_nonzero_results (n : nat) (g : Script.globals)
  (w w' : world) (xs : list Z) (rs : list Z) :
  heap w !! Script.stops g = Some xs ->
  Script.run_simulations n g w = Ok rs w' ->
  length rs = n /\
  Forall (fun r => 0 <= r) rs /\
  Script.num_quals rs =
    Z.of_nat (length (List.filter (fun r => negb (r =? 0)) rs)) /\
  0 <= Script.num_quals rs <= Z.of_nat n.
Proof.
  intros Hl E.
  destruct (run_simulations_spec n g w xs Hl) as (rs' & w'' & E' & Hlen & Hall & _).
  rewrite E in E'. injection E' as <- _.
  split; [exact Hlen|]. split; [|split].
  - eapply Forall_impl; [exact Hall|]. simpl. intros; lia.
  - unfold Script.num_quals. do 2 f_equal. apply List.filter_ext_in.
    intros r Hr. rewrite Forall_forall in Hall.
    apply list_elem_of_In in Hr. specialize (Hall r Hr).
    destruct (Z.gtb_spec r 0), (Z.eqb_spec r 0); simpl; auto; lia.
  - rewrite <- Hlen. apply num_quals_range.
Qed.

Lemma qualifications_are_the_nonzero_results_witness :
  exists rs w', Script.run_simulations 3 (Script.Globals 3 0%nat (1 # 4) (1 # 4) 4 3)
                  two_stops_world = Ok rs w' /\
                length rs = 3%nat /\ Script.num_quals rs = 0.
Proof.
  assert (H : exists w', Script.run_simulations 3
                (Script.Globals 3 0%nat (1 # 4) (1 # 4) 4 3) two_stops_world
              = Ok [0; 0; 0] w') by (eexists; vm_compute; reflexivity).
  destruct H as [w' H]. exists [0; 0; 0], w'. split; [exact H|].
  assert (Hl : heap two_stops_world !! 0%nat = Some [1; 2])
    by (vm_compute; reflexivity).
  destruct (qualifications_are_the_nonzero_results 3
              (Script.Globals 3 0%nat (1 # 4) (1 # 4) 4 3) two_stops_world w'
              [1; 2] [0; 0; 0] Hl H) as (Hlen & _ & Hq & _).
  split; [exact Hlen | rewrite Hq; reflexivity].
Defined.

(** X17: in every game of a call a win adds one star; a loss at a star
    total that is among the stops given, or at 0, changes nothing; a loss
    anywhere else takes one star. The games are those of the call
    ([sim_league_run]). *)
Theorem stops_protect_from_losses (stars : Z) (l : loc) (wr : Q)
  (qwr : option Q) (gp : Z) (w : world) (xs : list Z) (e : game_log) :
  heap w !! l = Some xs ->
  e ∈ sim_league_games stars l wr qwr gp w ->
  let before := total_stars (g_before e) in
  let after := total_stars (g_after e) in
  ((g_cutoff e < win_rate (g_before e))%Q -> after = before + 1) /\
  ((win_rate (g_before e) <= g_cutoff e)%Q ->
   (before ∈ xs \/ before = 0 -> g_after e = g_before e) /\
   (before ∉ xs -> before <> 0 -> after = before - 1)).
Proof.
  intros Hl He. cbv zeta.
  destruct (quals_stop_of_spec xs) as (q & Hq & _).
  rewrite (sim_league_games_unfold _ _ _ _ _ _ _ _ Hl Hq) in He.
  pose proof (games_entries stars (list_to_set (xs ++ [0])) q
                (quals_rate_used wr qwr) (rng_draws w) (Z.to_nat gp) 0
                (rng_pos w) (Locals 0 wr)) as Hall.
  rewrite Forall_forall in Hall. destruct (Hall e He) as [k Hk].
  assert (Hin : forall x, x ∈ (list_to_set (xs ++ [0]) : gset Z) <->
                          x ∈ xs \/ x = 0).
  { intros x. rewrite elem_of_list_to_set, elem_of_app,
      list_elem_of_singleton. tauto. }
  destruct (game_body_cases stars (list_to_set (xs ++ [0])) q
              (quals_rate_used wr qwr) k (g_cutoff e) (g_before e))
    as [[Hw Hwon] | [Hlo [[Hn E] | [Hy E]]]].
  - split; [|intros Hlo; won_and_lost]. intros _.
    destruct Hwon as [[_ E] | [[_ [_ E]] | [_ [_ E]]]];
      rewrite E in Hk; injection Hk as Ha _; rewrite Ha; reflexivity.
  - rewrite E in Hk. injection Hk as Ha _. rewrite Ha. simpl.
    split; [intros Hw; won_and_lost|]. intros _. split; [|reflexivity].
    intros Hs. exfalso. apply Hn, Hin, Hs.
  - rewrite E in Hk. injection Hk as Ha _. rewrite Ha.
    split; [intros Hw; won_and_lost|]. intros _. split; [reflexivity|].
    intros H1 H2. exfalso. apply Hin in Hy. tauto.
Qed.

Lemma stops_protect_from_losses_witness :
  exists e, sim_league_games 3 0%nat (1 # 4) None 10 two_stops_world !! 1%nat
            = Some e /\
            total_stars (g_before e) = 1 /\ g_after e = g_before e.
Proof.
  assert (H : exists e, sim_league_games 3 0%nat (1 # 4) None 10
                          two_stops_world !! 1%nat = Some e /\
                        total_stars (g_before e) = 1 /\
                        (win_rate (g_before e) <= g_cutoff e)%Q).
  { eexists. split; [vm_compute; reflexivity|].
    split; [reflexivity | unfold Qle; simpl; lia]. }
  destruct H as (e & He & Ht & Hlost). exists e.
  split; [exact He|]. split; [exact Ht|].
  assert (Hl : heap two_stops_world !! 0%nat = Some [1; 2])
    by (vm_compute; reflexivity).
  destruct (stops_protect_from_losses 3 0%nat (1 # 4)%Q None 10
              two_stops_world [1; 2] e Hl
              (list_elem_of_lookup_2 _ _ _ He)) as [_ Hp].
  apply (Hp Hlost). left. rewrite Ht. apply list_elem_of_In. simpl. lia.
Defined.

(** Below the target, with the highest stop elsewhere, a game either
    returns, at the target, or leaves the total below the target. *)
Lemma games_below_target (stars : Z) (stops : gset Z) (q : Z) (qw : Q)
  (draws : nat -> Q) (n : nat) (game : Z) (pos : nat) (s : locals) :
  q <> stars ->
  total_stars s < stars ->
  Forall (fun e => total_stars (g_before e) < stars /\
                   match g_return e with
                   | Some _ => total_stars (g_after e) = stars
                   | None => total_stars (g_after e) < stars
                   end)
         (games stars stops q qw draws n game pos s).
Proof.
  intros Hne. revert game pos s. induction n as [|n IH]; intros game pos s Hs;
    [constructor|].
  rewrite games_S.
  destruct (game_body_cases stars stops q qw game (draws pos) s)
    as [[_ [[? E] | [[_ [? E]] | [? [? E]]]]] | [_ [[_ E] | [_ E]]]];
    rewrite E; simpl; constructor; simpl; try (split; lia);
    try constructor; apply IH; simpl; lia.
Qed.

(** X18: with a positive target that is not the highest stop, a call
    returns at the first game that brings the star total to [stars]:
    every game starts below [stars], a game that does not return ends
    below [stars], and the game that returns ends at [stars]. The games
    are those of the call ([sim_league_run]). *)
Theorem returns_when_target_first_reached (stars : Z) (l : loc) (wr : Q)
  (qwr : option Q) (gp : Z) (w : world) (xs : list Z) (q : Z) :
  heap w !! l = Some xs ->
  quals_stop_of xs = Some q ->
  q <> stars ->
  0 < stars ->
  Forall (fun e => total_stars (g_before e) < stars /\
                   match g_return e with
                   | Some _ => total_stars (g_after e) = stars
                   | None => total_stars (g_after e) < stars
                   end)
         (sim_league_games stars l wr qwr gp w).
Proof.
  intros Hl Hq Hne Hst.
  rewrite (sim_league_games_unfold _ _ _ _ _ _ _ _ Hl Hq).
  apply games_below_target; simpl; auto.
Qed.

Lemma returns_when_target_first_reached_witness :
  star_totals (sim_league_games 3 0%nat (1 # 4) None 10 two_stops_world)
  = [0; 1; 1; 2; 2; 3] /\
  Forall (fun e => total_stars (g_before e) < 3 /\
                   match g_return e with
                   | Some _ => total_stars (g_after e) = 3
                   | None => total_stars (g_after e) < 3
                   end)
         (sim_league_games 3 0%nat (1 # 4) None 10 two_stops_world).
Proof.
  split; [vm_compute; reflexivity|].
  apply (returns_when_target_first_reached 3 0%nat (1 # 4)%Q None 10
           two_stops_world [1; 2] 2).
  - vm_compute; reflexivity.
  - vm_compute; reflexivity.
  - lia.
  - lia.
Defined.
